(** * ImageToText: recognition selection and the text-correction pipeline

    A shallow embedding of [ocr_engine.py] ([OCREngine]) and
    [error_checker.py] ([ErrorChecker]), with the properties of the
    design document proved or refuted against it.

    Python strings are sequences of Unicode code points; they are modelled
    as lists of code points so that [len], slicing and [str.replace] count
    what Python counts. *)

From Stdlib Require Import NArith QArith Ascii String DecimalString Permutation.
From stdpp Require Import base list strings gmap fin_maps.

Local Open Scope N_scope.
Local Open Scope nat_scope.

(** ** Python [str] *)

Abbreviation char := N (only parsing).
Abbreviation str := (list N) (only parsing).

(** [len(s)] *)
Definition len (s : str) : nat := length s.

(** Literals are written as UTF-8 source text and decoded to code points. *)
Fixpoint utf8_go (pending : nat) (acc : N) (bs : list N) : str :=
  match bs with
  | [] => []
  | b :: bs' =>
      match pending with
      | O =>
          if (b <? 128)%N then b :: utf8_go 0 0%N bs'
          else if (b <? 224)%N then utf8_go 1 (N.land b 31) bs'
          else if (b <? 240)%N then utf8_go 2 (N.land b 15) bs'
          else utf8_go 3 (N.land b 7) bs'
      | S p =>
          let acc' := (acc * 64 + N.land b 63)%N in
          match p with
          | O => acc' :: utf8_go 0 0%N bs'
          | S _ => utf8_go p acc' bs'
          end
      end
  end.

Definition u (s : string) : str :=
  utf8_go 0 0%N (map N_of_ascii (list_ascii_of_string s)).

Definition eqc (a b : char) : bool := (a =? b)%N.

Fixpoint eqt (a b : str) : bool :=
  match a, b with
  | [], [] => true
  | x :: a', y :: b' => eqc x y && eqt a' b'
  | _, _ => false
  end.

(** [str.isspace] per code point: the Unicode white-space set CPython uses
    for [str.strip()] and [str.split()]. *)
Definition isspace (c : char) : bool :=
  ((9 <=? c) && (c <=? 13) || (28 <=? c) && (c <=? 32)
   || (c =? 133) || (c =? 160) || (c =? 5760)
   || (8192 <=? c) && (c <=? 8202)
   || (c =? 8232) || (c =? 8233) || (c =? 8239) || (c =? 8287)
   || (c =? 12288))%N.

Fixpoint lstrip (s : str) : str :=
  match s with
  | c :: s' => if isspace c then lstrip s' else s
  | [] => []
  end.

(** [s.strip()] *)
Definition strip (s : str) : str := rev (lstrip (rev (lstrip s))).

(** [len(s.split())]: the number of maximal runs of non-space characters. *)
Fixpoint count_words (in_word : bool) (s : str) : nat :=
  match s with
  | [] => 0
  | c :: s' =>
      if isspace c then count_words false s'
      else if in_word then count_words true s'
      else S (count_words true s')
  end.

(** Python slice [s[a:b]] for non-negative [a], [b]. *)
Definition slice (a b : nat) (s : str) : str := take (b - a) (drop a s).

(** ** ocr_engine.py *)

Inductive outcome (A : Type) : Type :=
| Ok (a : A)
| Raise (msg : str).
Arguments Ok {A} a.
Arguments Raise {A} msg.

#[global] Instance outcome_bind : MBind outcome := λ A B k m,
  match m with
  | Ok a => k a
  | Raise e => Raise e
  end.

(** The OpenCV and Tesseract calls the engine makes.  [imread] returns
    [None] for a file it cannot load or decode; every other call either
    returns or raises. *)
Record Vision (image : Type) := {
  path_exists : str -> bool;
  imread : str -> option image;
  cvtColor_gray : image -> outcome image;
  clahe_apply : image -> outcome image;
  threshold_otsu : image -> outcome image;
  adaptiveThreshold : image -> outcome image;
  morphologyEx_close : image -> outcome image;
  fastNlMeansDenoising : image -> outcome image;
  filter2D_sharpen : image -> outcome image;
  image_to_string : image -> outcome str;
}.
Arguments path_exists {image}.
Arguments imread {image}.
Arguments cvtColor_gray {image}.
Arguments clahe_apply {image}.
Arguments threshold_otsu {image}.
Arguments adaptiveThreshold {image}.
Arguments morphologyEx_close {image}.
Arguments fastNlMeansDenoising {image}.
Arguments filter2D_sharpen {image}.
Arguments image_to_string {image}.

Inductive ocr_result :=
| OcrFailure (error : str)
| OcrSuccess (full_text : str) (characters words : nat).

Section OCREngine.
Context {image : Type} (cv : Vision image).

(** [_preprocess_image] *)
Definition _preprocess_image (image_path : str) : outcome (list image) :=
  match imread cv image_path with
  | None => Ok []
  | Some img =>
      gray ← cvtColor_gray cv img;
      enhanced ← clahe_apply cv gray;
      otsu ← threshold_otsu cv gray;
      adaptive ← adaptiveThreshold cv gray;
      morph ← morphologyEx_close cv gray;
      denoised ← fastNlMeansDenoising cv gray;
      sharpened ← filter2D_sharpen cv gray;
      Ok [gray; enhanced; otsu; adaptive; morph; denoised; sharpened]
  end.

(** [_recognize_with_tesseract]: a bare [except] turns any failure into
    the empty text. *)
Definition _recognize_with_tesseract (img : image) : str :=
  match image_to_string cv img with
  | Ok t => t
  | Raise _ => []
  end.

(** The selection loop of [recognize_text], over the texts in variant
    order. *)
Definition keep_longer (best_text t : str) : str :=
  if len best_text <? len t then t else best_text.

Definition select_best (texts : list str) : str :=
  fold_left keep_longer texts [].

(** [recognize_text] *)
Definition recognize_text (image_path : str) : ocr_result :=
  if negb (path_exists cv image_path) then
    OcrFailure (u "Файл не найден")
  else
    match _preprocess_image image_path with
    | Raise e => OcrFailure e
    | Ok images =>
        let best_text := select_best (map _recognize_with_tesseract images) in
        OcrSuccess (strip best_text) (len (strip best_text))
                   (count_words false (strip best_text))
    end.
End OCREngine.


(** ** Python and [re] primitives used by error_checker.py *)

(** The Unicode tables of the Python runtime the checker consults:
    [str.isalpha], the regex class [\w], [str.lower] (one code point may
    lower to several) and the comparison [re.IGNORECASE] makes between a
    literal pattern character and a text character. *)
Record UnicodeTable := {
  isalpha : char -> bool;
  isword : char -> bool;
  lower : char -> str;
  ieq : char -> char -> bool;
}.

(** [p] is a prefix of [s] *)
Fixpoint is_prefix (p s : str) : bool :=
  match p, s with
  | [], _ => true
  | a :: p', b :: s' => eqc a b && is_prefix p' s'
  | _ :: _, [] => false
  end.

(** [sub in s] *)
Fixpoint contains (sub s : str) : bool :=
  is_prefix sub s ||
  match s with
  | [] => false
  | _ :: s' => contains sub s'
  end.

Definition count_left (count : option nat) : bool :=
  match count with
  | Some O => false
  | _ => true
  end.

Definition count_pred (count : option nat) : option nat :=
  match count with
  | Some n => Some (pred n)
  | None => None
  end.

(** [s.replace(old, new[, count])] for non-empty [old]: left to right,
    non-overlapping; [skip] counts the characters of a replaced occurrence
    still to be passed over. *)
Fixpoint replace_go (old new : str) (count : option nat) (skip : nat) (s : str) : str :=
  match s with
  | [] => []
  | c :: s' =>
      match skip with
      | S k => replace_go old new count k s'
      | O =>
          if count_left count && is_prefix old s
          then new ++ replace_go old new (count_pred count) (pred (length old)) s'
          else c :: replace_go old new count 0 s'
      end
  end.

(** [s.replace('', new[, count])] puts [new] before every character and at
    the end. *)
Fixpoint replace_empty (new : str) (count : option nat) (s : str) : str :=
  if count_left count then
    match s with
    | [] => new
    | c :: s' => new ++ c :: replace_empty new (count_pred count) s'
    end
  else s.

Definition py_replace (s old new : str) (count : option nat) : str :=
  match old with
  | [] => replace_empty new count s
  | _ :: _ => replace_go old new count 0 s
  end.

(** [re.finditer]/[re.findall] for the patterns of this file: a matcher
    tells, from the character before the position and the rest of the text,
    how long the match starting here is.  The scan returns each match's
    start index and matched text, left to right and non-overlapping.  None
    of the patterns below matches the empty string (the phrases of the
    context table are not empty). *)
Fixpoint scan (m : option char -> str -> option nat)
         (skip i : nat) (prev : option char) (s : str) : list (nat * str) :=
  match s with
  | [] => []
  | c :: s' =>
      match skip with
      | S k => scan m k (S i) (Some c) s'
      | O =>
          match m prev s with
          | Some n => (i, take n s) :: scan m (pred n) (S i) (Some c) s'
          | None => scan m 0 (S i) (Some c) s'
          end
      end
  end.

Definition finditer (m : option char -> str -> option nat) (s : str) : list (nat * str) :=
  scan m 0 0 None s.

(** The character class [[а-яёА-ЯЁ]] *)
Definition cyr_letter (c : char) : bool :=
  ((1072 <=? c) && (c <=? 1103) || (c =? 1105)
   || (1040 <=? c) && (c <=? 1071) || (c =? 1025))%N.

Definition hyphen : char := 45%N.
Definition newline : char := 10%N.

(** The pattern [([а-яёА-ЯЁ])-\n([а-яёА-ЯЁ])] *)
Definition m_hyphenation (_ : option char) (s : str) : option nat :=
  match s with
  | c1 :: h :: n :: c2 :: _ =>
      if cyr_letter c1 && eqc h hyphen && eqc n newline && cyr_letter c2
      then Some 4 else None
  | _ => None
  end.

(** Length of the longest prefix of [s] whose characters satisfy [p]. *)
Fixpoint run_length (p : char -> bool) (s : str) : nat :=
  match s with
  | c :: s' => if p c then S (run_length p s') else 0
  | [] => 0
  end.

Section Tables.
Context (U : UnicodeTable).

Definition is_w (o : option char) : bool :=
  match o with
  | Some c => isword U c
  | None => false
  end.

(** [\b] between two neighbouring positions *)
Definition boundary (before after : option char) : bool :=
  xorb (is_w before) (is_w after).

(** The greedy [+] gives back characters until [\b] holds after the
    match: the largest [k] in [1..n] with a boundary after [k]
    characters. *)
Fixpoint longest_end (s : str) (n : nat) : option nat :=
  match n with
  | O => None
  | S k =>
      if boundary (s !! k) (s !! S k) then Some (S k) else longest_end s k
  end.

(** The pattern [\bC+\b] for a character class [C] *)
Definition m_word (cls : char -> bool) (prev : option char) (s : str) : option nat :=
  if boundary prev (head s) then longest_end s (run_length cls s) else None.

(** A literal pattern under [re.IGNORECASE] *)
Fixpoint iprefix (pat s : str) : bool :=
  match pat, s with
  | [], _ => true
  | p :: pat', c :: s' => ieq U p c && iprefix pat' s'
  | _ :: _, [] => false
  end.

Definition m_literal_icase (pat : str) (_ : option char) (s : str) : option nat :=
  if iprefix pat s then Some (length pat) else None.

(** [s.lower()] *)
Definition lower_str (s : str) : str := flat_map (lower U) s.
End Tables.

(** ** error_checker.py *)

(** One entry of the [errors] list (a Python dict with these keys;
    ['confidence'] and ['candidates'] are present only where a pass sets
    them). *)
Record issue := {
  type : string;
  original : str;
  suggestion : str;
  text : str;
  description : str;
  confidence : option Q;
  candidates : option (list str);
}.

(** A match object returned by [lt.check].  The pass reads its attributes
    [category], [replacements], [offset] and [length] inside its [try];
    reading an attribute either returns its value or raises (an
    [AttributeError] when the object has no such attribute). *)
Record lt_match := {
  category : outcome string;
  replacements : outcome (list str);
  offset : outcome nat;
  mlength : outcome nat;
}.

Record LanguageTool := {
  check : str -> outcome (list lt_match);
}.

(** [pyspellchecker]; sets are given in their iteration order, and a
    [None] result of [candidates] is the empty list. *)
Record SpellChecker := {
  unknown : list str -> outcome (list str);
  spell_candidates : str -> outcome (list str);
}.

Record ErrorChecker := {
  language : string;
  spell : option SpellChecker;
  has_spellchecker : bool;
  lt : option LanguageTool;
  has_language_tool : bool;
  context_errors : list (str * str);
}.

(** [__init__]: each engine is loaded inside its own [try]. *)
Definition init (language : string) (load_spell : outcome SpellChecker)
           (load_lt : outcome LanguageTool) : ErrorChecker :=
  {| language := language;
     spell := match load_spell with Ok sp => Some sp | Raise _ => None end;
     has_spellchecker := match load_spell with Ok _ => true | Raise _ => false end;
     lt := match load_lt with Ok l => Some l | Raise _ => None end;
     has_language_tool := match load_lt with Ok _ => true | Raise _ => false end;
     context_errors :=
       [ (u "в нес", u "в нее");
         (u "на нес", u "на нее");
         (u "к неи", u "к ней");
         (u "из нес", u "из нее");
         (u "для нес", u "для нее");
         (u "ве", u "её");
         (u "кнам", u "к нам") ] |}.

Definition quote : str := [34%N].

Section Checker.
Context (U : UnicodeTable).

(** The two [while] loops that widen a match to the word around it. *)
Fixpoint scan_left (text : str) (word_start : nat) : nat :=
  match word_start with
  | O => O
  | S j =>
      match text !! j with
      | Some c => if isalpha U c then scan_left text j else word_start
      | None => word_start
      end
  end.

Definition scan_right (text : str) (word_end : nat) : nat :=
  word_end + run_length (isalpha U) (drop word_end text).

Definition hyphenation_issue (text : str) (m : nat * str) : issue :=
  let original := m.2 in
  let start := m.1 in
  let end_ := start + length original in
  let part1 := slice start (start + 1) text in
  let part2 := slice (start + 3) (start + 4) text in
  let suggestion := part1 ++ part2 in
  let word_start := scan_left text start in
  let word_end := scan_right text end_ in
  let full_original := slice word_start word_end text in
  let full_suggestion :=
    slice word_start start text ++ suggestion ++ slice end_ word_end text in
  {| type := "hyphenation_error";
     original := full_original;
     suggestion := full_suggestion;
     text := original;
     description :=
       u "Перенос слова: " ++ quote ++ full_original ++ quote
         ++ u " → " ++ quote ++ full_suggestion ++ quote;
     confidence := None;
     candidates := None |}.

(** [_fix_word_hyphenation] *)
Definition _fix_word_hyphenation (text : str) : list issue :=
  map (hyphenation_issue text) (finditer m_hyphenation text).

Definition ocr_replacements : list (str * str) :=
  [ (u "0", u "О"); (u "1", u "І"); (u "3", u "З"); (u "l", u "і") ].

Definition correct_word (word : str) : str :=
  fold_left
    (fun corrected_word '(bad_char, good_char) =>
       if contains bad_char word
       then py_replace corrected_word bad_char good_char None
       else corrected_word)
    ocr_replacements word.

Definition ocr_issue (original_word corrected_word : str) : issue :=
  {| type := "ocr_error";
     original := original_word;
     suggestion := corrected_word;
     text := original_word;
     description := u "Ошибка OCR: " ++ original_word ++ u " → " ++ corrected_word;
     confidence := None;
     candidates := None |}.

(** [re.findall(r'\b\w+\b', text)] *)
Definition findall_words (text : str) : list str :=
  map snd (finditer (m_word U (isword U)) text).

(** [_check_ocr_errors] *)
Definition _check_ocr_errors (text : str) : list issue :=
  flat_map
    (fun word =>
       let corrected_word := correct_word word in
       if eqt corrected_word word then [] else [ocr_issue word corrected_word])
    (findall_words text).

Definition context_issue (matched correct_phrase : str) : issue :=
  {| type := "context_error";
     original := matched;
     suggestion := correct_phrase;
     text := matched;
     description :=
       u "Контекстная ошибка: " ++ quote ++ matched ++ quote
         ++ u " → " ++ quote ++ correct_phrase ++ quote;
     confidence := None;
     candidates := None |}.

Definition context_issues_for (text : str) (entry : str * str) : list issue :=
  let '(wrong_phrase, correct_phrase) := entry in
  if contains (lower_str U wrong_phrase) (lower_str U text)
  then map (fun m => context_issue m.2 correct_phrase)
           (finditer (m_literal_icase U wrong_phrase) text)
  else [].

(** [_check_context_errors] *)
Definition _check_context_errors (self : ErrorChecker) (text : str) : list issue :=
  flat_map (context_issues_for text) (context_errors self).

Definition grammar_category (c : string) : bool :=
  String.eqb c "TYPOS" || String.eqb c "GRAMMAR".

Definition grammar_issue (original_text suggestion : str) : issue :=
  {| type := "grammar_error";
     original := original_text;
     suggestion := suggestion;
     text := original_text;
     description :=
       u "Грамматика: " ++ quote ++ original_text ++ quote
         ++ u " → " ++ quote ++ suggestion ++ quote;
     confidence := Some (8 # 10)%Q;
     candidates := None |}.

(** The body of the loop over [matches]: the issues it appends for one
    match, or the exception an attribute read raises. *)
Definition grammar_span (text : str) (m : lt_match) : outcome (list issue) :=
  cat ← category m;
  if grammar_category cat then
    reps ← replacements m;
    match reps with
    | [] => Ok []
    | suggestion :: _ =>
        off ← offset m;
        len_ ← mlength m;
        Ok [grammar_issue (slice off (off + len_) text) suggestion]
    end
  else Ok [].

(** The loop runs inside the [try]: an exception ends it, and the function
    returns the issues appended so far. *)
Fixpoint grammar_loop (text : str) (matches : list lt_match)
         (errors : list issue) : list issue :=
  match matches with
  | [] => errors
  | m :: rest =>
      match grammar_span text m with
      | Raise _ => errors
      | Ok found => grammar_loop text rest (errors ++ found)
      end
  end.

(** [_check_grammar] *)
Definition _check_grammar (self : ErrorChecker) (text : str) : list issue :=
  if negb (has_language_tool self) then []
  else
    match lt self with
    | None => []
    | Some tool =>
        match check tool text with
        | Raise _ => []
        | Ok matches => grammar_loop text matches []
        end
    end.

Definition spelling_issue (word suggestion : str) (cands : list str) : issue :=
  {| type := "spelling_error";
     original := word;
     suggestion := suggestion;
     text := word;
     description := u "Орфография: " ++ word ++ u " → " ++ suggestion;
     confidence := None;
     candidates := Some (take 3 cands) |}.

(** The loop over [misspelled]; a raising [candidates] call leaves the
    [try] with the issues appended so far. *)
Fixpoint spelling_loop (sp : SpellChecker) (misspelled : list str)
         (errors : list issue) : list issue :=
  match misspelled with
  | [] => errors
  | word :: rest =>
      match spell_candidates sp word with
      | Raise _ => errors
      | Ok [] => spelling_loop sp rest errors
      | Ok ((suggestion :: _) as cands) =>
          spelling_loop sp rest (errors ++ [spelling_issue word suggestion cands])
      end
  end.

(** [re.findall(r'\b[а-яёА-ЯЁ]+\b', text)] *)
Definition findall_cyr_words (text : str) : list str :=
  map snd (finditer (m_word U cyr_letter) text).

(** [_check_spelling] *)
Definition _check_spelling (self : ErrorChecker) (text : str) : list issue :=
  if negb (has_spellchecker self) then []
  else
    match spell self with
    | None => []
    | Some sp =>
        match unknown sp (findall_cyr_words text) with
        | Raise _ => []
        | Ok misspelled => spelling_loop sp misspelled []
        end
    end.

(** [_count_error_types] *)
Definition _count_error_types (errors : list issue) : gmap string nat :=
  fold_left
    (fun counts error =>
       let error_type := type error in
       <[error_type := default 0 (counts !! error_type) + 1]> counts)
    errors ∅.

(** The state [check_text] threads through its passes *)
Definition pass_state : Type := str * list issue.

Definition apply_all (corrected_text : str) (errors : list issue) : str :=
  fold_left
    (fun t error => py_replace t (original error) (suggestion error) None)
    errors corrected_text.

Definition apply_first (corrected_text : str) (errors : list issue) : str :=
  fold_left
    (fun t error => py_replace t (original error) (suggestion error) (Some 1))
    errors corrected_text.

(** [error.get('confidence', 0) > 0.8] *)
Definition confident (error : issue) : bool :=
  negb (Qle_bool (default 0%Q (confidence error)) (8 # 10)%Q).

Definition apply_confident (corrected_text : str) (errors : list issue) : str :=
  fold_left
    (fun t error =>
       if confident error
       then py_replace t (original error) (suggestion error) (Some 1)
       else t)
    errors corrected_text.

Definition hyphenation_pass (st : pass_state) : pass_state :=
  let '(corrected_text, errors) := st in
  let hyphen_errors := _fix_word_hyphenation corrected_text in
  (apply_all corrected_text hyphen_errors, errors ++ hyphen_errors).

Definition ocr_pass (text : str) (check_ocr_errors : bool) (st : pass_state) : pass_state :=
  let '(corrected_text, errors) := st in
  if check_ocr_errors then
    let ocr_errors := _check_ocr_errors text in
    (apply_all corrected_text ocr_errors, errors ++ ocr_errors)
  else st.

Definition context_pass (self : ErrorChecker) (st : pass_state) : pass_state :=
  let '(corrected_text, errors) := st in
  let ctx_errors := _check_context_errors self corrected_text in
  (apply_all corrected_text ctx_errors, errors ++ ctx_errors).

Definition grammar_pass (self : ErrorChecker) (check_grammar : bool)
           (st : pass_state) : pass_state :=
  let '(corrected_text, errors) := st in
  if check_grammar && has_language_tool self then
    let grammar_errors := _check_grammar self corrected_text in
    (apply_confident corrected_text grammar_errors, errors ++ grammar_errors)
  else st.

Definition spelling_pass (self : ErrorChecker) (check_grammar : bool)
           (st : pass_state) : pass_state :=
  let '(corrected_text, errors) := st in
  if check_grammar && has_spellchecker self then
    let spell_errors := _check_spelling self corrected_text in
    (apply_first corrected_text spell_errors, errors ++ spell_errors)
  else st.

Record check_result := {
  success : bool;
  original_text : str;
  corrected_text : str;
  errors : list issue;
  error_count : nat;
  error_types : gmap string nat;
}.

(** [check_text] *)
Definition check_text (self : ErrorChecker) (text : str)
           (check_grammar check_ocr_errors : bool) : check_result :=
  let st0 : pass_state := (text, []) in
  let st1 := hyphenation_pass st0 in
  let st2 := ocr_pass text check_ocr_errors st1 in
  let st3 := context_pass self st2 in
  let st4 := grammar_pass self check_grammar st3 in
  let st5 := spelling_pass self check_grammar st4 in
  {| success := true;
     original_text := text;
     corrected_text := st5.1;
     errors := st5.2;
     error_count := length st5.2;
     error_types := _count_error_types st5.2 |}.
End Checker.

(** [get_stats] *)
Record stats := {
  total_errors : nat;
  stats_error_types : gmap string nat;
  ocr_errors : nat;
  by_type_context_errors : nat;
  grammar_errors : nat;
  spelling_errors : nat;
}.

Definition count_type (ty : string) (errors : list issue) : nat :=
  length (filter (fun e => type e = ty) errors).

Definition get_stats (errors : list issue) : stats :=
  {| total_errors := length errors;
     stats_error_types := _count_error_types errors;
     ocr_errors := count_type "ocr_error" errors;
     by_type_context_errors := count_type "context_error" errors;
     grammar_errors := count_type "grammar_error" errors;
     spelling_errors := count_type "spelling_error" errors |}.

(** The life of one [ErrorChecker]: after [__init__] the only operations
    are its public methods, and none of them assigns an attribute. *)
Inductive call :=
| CheckText (text : str) (check_grammar check_ocr_errors : bool)
| GetStats (errors : list issue)
| Close.

Inductive response :=
| Checked (r : check_result)
| Stats (s : stats)
| Closed.

Definition step (U : UnicodeTable) (self : ErrorChecker) (c : call)
  : ErrorChecker * response :=
  match c with
  | CheckText text check_grammar check_ocr_errors =>
      (self, Checked (check_text U self text check_grammar check_ocr_errors))
  | GetStats errors => (self, Stats (get_stats errors))
  | Close => (self, Closed)
  end.

Fixpoint run (U : UnicodeTable) (self : ErrorChecker) (calls : list call)
  : ErrorChecker * list response :=
  match calls with
  | [] => (self, [])
  | c :: rest =>
      let '(self', r) := step U self c in
      let '(self'', rs) := run U self' rest in
      (self'', r :: rs)
  end.

(** ** Vocabulary of the properties *)

(** [sep.join(pieces)] *)
Fixpoint join (sep : str) (pieces : list str) : str :=
  match pieces with
  | [] => []
  | [p] => p
  | p :: ps => p ++ sep ++ join sep ps
  end.

(** No occurrence of [old] starts inside [piece] when [piece] is followed
    by [follow]. *)
Definition no_start (old piece follow : str) : Prop :=
  ∀ k, k < length piece → is_prefix old (drop k (piece ++ follow)) = false.

(** [pieces] are the stretches between the occurrences of [old] that a
    left-to-right scan finds. *)
Fixpoint leftmost_pieces (old : str) (pieces : list str) : Prop :=
  match pieces with
  | [] => False
  | [p] => contains old p = false
  | p :: ps => no_start old p (old ++ join old ps) ∧ leftmost_pieces old ps
  end.

(** [r] is [s] with every occurrence of [old] (left to right, not
    overlapping) replaced by [new]. *)
Definition replaced_everywhere (old new s r : str) : Prop :=
  ∃ pieces, leftmost_pieces old pieces
            ∧ s = join old pieces ∧ r = join new pieces.


(** The spans the design document calls kept: those categorized as
    spelling-typo or grammar (the test of line 208). *)
Definition kept_by_category (m : lt_match) : bool :=
  match category m with
  | Ok cat => grammar_category cat
  | Raise _ => false
  end.


(** In a scan for the hyphenation pattern, [skip] characters of a reported
    match are still to be passed over: the text ahead starts with the last
    [skip] characters of a match. *)
Definition inside_match (skip : nat) (s : str) : Prop :=
  match skip with
  | 0 => True
  | 1 => ∃ c r, s = c :: r ∧ cyr_letter c = true
  | 2 => ∃ c r, s = newline :: c :: r ∧ cyr_letter c = true
  | 3 => ∃ c r, s = hyphen :: newline :: c :: r ∧ cyr_letter c = true
  | _ => False
  end.

(** [sum(counts.values())] *)
Definition sum_counts (counts : gmap string nat) : nat :=
  map_fold (fun _ v acc => v + acc) 0 counts.

(** The confusable mapping, character by character *)
Definition fix_char (c : char) : char :=
  if eqc c 48%N then 1054%N
  else if eqc c 49%N then 1030%N
  else if eqc c 51%N then 1047%N
  else if eqc c 108%N then 1110%N
  else c.

Definition mapped (c : char) : bool :=
  eqc c 48%N || eqc c 49%N || eqc c 51%N || eqc c 108%N.

Definition swap_char (a b c : char) : char := if eqc c a then b else c.

(** No proper suffix of [pat] is also a prefix of it. *)
Fixpoint borderless_from (pat suffix : str) : bool :=
  match suffix with
  | [] => true
  | _ :: suffix' => negb (is_prefix suffix pat) && borderless_from pat suffix'
  end.

Definition borderless (pat : str) : bool := borderless_from pat (tail pat).

(** ** Concrete instances used to evaluate the model *)

(** CPython's tables restricted to Basic Latin and the Cyrillic range
    U+0400..U+045F; other code points are treated as caseless
    non-letters. *)
Definition ascii_upper (c : char) : bool := ((65 <=? c) && (c <=? 90))%N.
Definition ascii_lower (c : char) : bool := ((97 <=? c) && (c <=? 122))%N.
Definition ascii_digit (c : char) : bool := ((48 <=? c) && (c <=? 57))%N.
Definition cyr_block (c : char) : bool := ((1024 <=? c) && (c <=? 1119))%N.

Definition lower1 (c : char) : char :=
  if ascii_upper c then (c + 32)%N
  else if ((1024 <=? c) && (c <=? 1039))%N then (c + 80)%N
  else if ((1040 <=? c) && (c <=? 1071))%N then (c + 32)%N
  else c.

Definition basic_table : UnicodeTable :=
  {| isalpha := fun c => ascii_upper c || ascii_lower c || cyr_block c;
     isword := fun c =>
       ascii_upper c || ascii_lower c || cyr_block c || ascii_digit c || eqc c 95%N;
     lower := fun c => [lower1 c];
     ieq := fun p c => eqc (lower1 p) (lower1 c) |}.

(** An engine whose image file is present but cannot be decoded. *)
Definition undecodable : Vision nat :=
  {| path_exists := fun _ => true;
     imread := fun _ => None;
     cvtColor_gray := Ok;
     clahe_apply := Ok;
     threshold_otsu := Ok;
     adaptiveThreshold := Ok;
     morphologyEx_close := Ok;
     fastNlMeansDenoising := Ok;
     filter2D_sharpen := Ok;
     image_to_string := fun _ => Ok [] |}.

(** An engine whose variants are numbered 1..7; Tesseract reads padded
    output from the baseline and clean output from the contrast variant. *)
Definition padded_baseline : Vision nat :=
  {| path_exists := fun _ => true;
     imread := fun _ => Some 0;
     cvtColor_gray := fun _ => Ok 1;
     clahe_apply := fun _ => Ok 2;
     threshold_otsu := fun _ => Ok 3;
     adaptiveThreshold := fun _ => Ok 4;
     morphologyEx_close := fun _ => Ok 5;
     fastNlMeansDenoising := fun _ => Ok 6;
     filter2D_sharpen := fun _ => Ok 7;
     image_to_string := fun v =>
       match v with
       | 1 => Ok (u "a" ++ [10; 10; 10; 10; 12]%N)
       | 2 => Ok (u "abc")
       | _ => Ok []
       end |}.

(** An engine whose image loads; Tesseract fails on the baseline, reads
    white space from the contrast variant and nothing from the others. *)
Definition blank_reader : Vision nat :=
  {| path_exists := fun _ => true;
     imread := fun _ => Some 0;
     cvtColor_gray := fun _ => Ok 1;
     clahe_apply := fun _ => Ok 2;
     threshold_otsu := fun _ => Ok 3;
     adaptiveThreshold := fun _ => Ok 4;
     morphologyEx_close := fun _ => Ok 5;
     fastNlMeansDenoising := fun _ => Ok 6;
     filter2D_sharpen := fun _ => Ok 7;
     image_to_string := fun v =>
       match v with
       | 1 => Raise (u "TesseractError")
       | 2 => Ok [32; 10; 12]%N
       | _ => Ok []
       end |}.

(** Engines for the checker: none available. *)
Definition no_engines : ErrorChecker :=
  init "ru" (Raise (u "No module named 'pyspellchecker'"))
       (Raise (u "No module named 'language_tool_python'")).

(** A spelling engine that reports two unknown words and fails while
    looking up the second. *)
Definition flaky_spell : SpellChecker :=
  {| unknown := fun _ => Ok [u "кот"; u "дом"];
     spell_candidates := fun w =>
       if eqt w (u "кот") then Ok [u "кит"] else Raise (u "lookup failed") |}.

Definition flaky_checker : ErrorChecker :=
  init "ru" (Ok flaky_spell) (Raise (u "No module named 'language_tool_python'")).

(** A grammar engine that flags the first three characters as a typo. *)
Definition typo_tool : LanguageTool :=
  {| check := fun _ =>
       Ok [ {| category := Ok "TYPOS"; offset := Ok 0; mlength := Ok 3;
               replacements := Ok [u "кит"; u "кот"] |} ] |}.





(** A grammar engine whose every call fails. *)
Definition failing_tool : LanguageTool :=
  {| check := fun _ => Raise (u "connection refused") |}.

Definition typo_checker : ErrorChecker :=
  init "ru" (Raise (u "No module named 'pyspellchecker'")) (Ok typo_tool).

Definition failing_grammar_checker : ErrorChecker :=
  init "ru" (Ok flaky_spell) (Ok failing_tool).

(** An issue as a caller could pass it to the replacement loop, confident
    enough to be applied. *)
Definition sure_issue : issue :=
  {| type := "grammar_error";
     original := u "кот";
     suggestion := u "кит";
     text := u "кот";
     description := [];
     confidence := Some (9 # 10)%Q;
     candidates := None |}.

(** The instance with the grammar pass switched off, as [__init__] leaves
    it when the engine cannot be loaded. *)
Definition without_grammar (self : ErrorChecker) : ErrorChecker :=
  {| language := language self;
     spell := spell self;
     has_spellchecker := has_spellchecker self;
     lt := None;
     has_language_tool := false;
     context_errors := context_errors self |}.

(** The text [check_text] hands to the grammar pass. *)
Definition before_grammar (U : UnicodeTable) (self : ErrorChecker) (text : str)
           (check_ocr_errors : bool) : pass_state :=
  context_pass U self (ocr_pass U text check_ocr_errors (hyphenation_pass U (text, []))).

(** The failure rule as the design document words it, for the spelling
    pass: when a call to the engine raises during the pass, the pass
    contributes no issues. *)
Definition raising_call_means_no_issues (U : UnicodeTable) (self : ErrorChecker)
           (text : str) : Prop :=
  ∀ sp misspelled w msg,
    has_spellchecker self = true → spell self = Some sp →
    unknown sp (findall_cyr_words U text) = Ok misspelled →
    w ∈ misspelled → spell_candidates sp w = Raise msg →
    _check_spelling U self text = [].

(** The count the design document words: one confusable-character issue
    per distinct affected token. *)
Definition one_issue_per_distinct_token (U : UnicodeTable) (text : str) : Prop :=
  length (_check_ocr_errors U text)
  = length (remove_dups (List.filter (existsb mapped) (findall_words U text))).

(** [occ] spells [wrong] up to letter case: character by character the
    lowercase forms agree. *)
Definition same_letters (U : UnicodeTable) (wrong occ : str) : Prop :=
  Forall2 (fun p c => lower U c = lower U p) wrong occ.

(** The selection rule as the design document words it: the winner is the
    variant with the longest trimmed text, the earliest such variant on a
    tie. *)
Definition selects_longest_trimmed {image} (cv : Vision image) (image_path : str) : Prop :=
  ∀ images, _preprocess_image cv image_path = Ok images → images ≠ [] →
    ∃ pre winner post,
      images = pre ++ winner :: post
      ∧ (∃ n w, recognize_text cv image_path
                = OcrSuccess (strip (_recognize_with_tesseract cv winner)) n w)
      ∧ (∀ v, v ∈ images →
           len (strip (_recognize_with_tesseract cv v))
           ≤ len (strip (_recognize_with_tesseract cv winner)))
      ∧ (∀ v, v ∈ pre →
           len (strip (_recognize_with_tesseract cv v))
           < len (strip (_recognize_with_tesseract cv winner))).

(** The failure rule as the design document words it: an image that cannot
    be loaded makes variant generation fail. *)
Definition fails_when_undecodable {image} (cv : Vision image) (image_path : str) : Prop :=
  imread cv image_path = None → ∃ e, _preprocess_image cv image_path = Raise e.

(** ** main.py *)

(** What the application does to the outside world, in order.  Logging is
    not part of the model. *)
Inductive event :=
| Print (line : str)
| WriteFile (path content : str)
| PrintHelp
| Exit (code : nat).

(** The file-system calls of main.py and config.py: the path
    [OUTPUT_DIR / "result.txt"] as text, [open(path, 'w')] followed by
    [f.write(content)], [Path(folder).glob('*')] as the list of paths it
    yields, [Path.suffix] and [Path.name]. *)
Record Files := {
  output_file : str;
  write_text : str -> str -> outcome unit;
  glob_all : str -> list str;
  path_suffix : str -> str;
  path_name : str -> str;
}.

(** The parsed command line *)
Record Args := {
  args_image : option str;
  args_folder : option str;
  args_no_check : bool;
  args_output : bool;
}.

(** config.py *)
Definition SUPPORTED_FORMATS : list str :=
  [u ".jpg"; u ".jpeg"; u ".png"; u ".bmp"; u ".gif"].

(** [str(n)] for a non-negative integer *)
Definition str_of_nat (n : nat) : str :=
  map N_of_ascii (list_ascii_of_string (NilEmpty.string_of_uint (Nat.to_uint n))).

(** ["="*70] *)
Definition rule : str := repeat 61%N 70.

(** Truth value of an optional command-line string *)
Definition given (o : option str) : bool :=
  match o with
  | Some (_ :: _) => true
  | _ => false
  end.

Definition error_line (i : nat) (err : issue) : event :=
  Print (u "  " ++ str_of_nat i ++ u ". '" ++ text err ++ u "' → '"
           ++ suggestion err ++ u "'").

(** [for i, err in enumerate(errors, 1): print(...)] *)
Fixpoint error_lines (i : nat) (errs : list issue) : list event :=
  match errs with
  | [] => []
  | err :: rest => error_line i err :: error_lines (S i) rest
  end.

Section Application.
Context {image : Type} (U : UnicodeTable) (cv : Vision image)
        (checker : ErrorChecker) (fs : Files).

(** [OCRApplication.process_image]: the events it causes, and whether it
    returns or lets an exception of the file write escape. *)
Definition process_image (image_path : str) (check_errors save_output : bool)
  : list event * outcome unit :=
  match recognize_text cv image_path with
  | OcrFailure error => ([Print (u " Ошибка: " ++ error)], Ok tt)
  | OcrSuccess full_text characters words =>
      let report :=
        [ Print ([newline] ++ rule);
          Print (u "  РАСПОЗНАННЫЙ ТЕКСТ:");
          Print rule;
          Print (match full_text with [] => u "(пусто)" | _ :: _ => full_text end);
          Print [];
          Print (u "  СТАТИСТИКА:");
          Print (u "  Символов: " ++ str_of_nat characters);
          Print (u "  Слов: " ++ str_of_nat words) ] in
      let checked :=
        if check_errors then
          let found := check_text U checker full_text true true in
          Print ([newline] ++ u "  НАЙДЕНО ОШИБОК: " ++ str_of_nat (error_count found))
            :: error_lines 1 (errors found)
        else [] in
      let closing := [Print (rule ++ [newline])] in
      if save_output then
        match write_text fs (output_file fs) full_text with
        | Ok _ =>
            (report ++ checked ++ closing
               ++ [ WriteFile (output_file fs) full_text;
                    Print (u " Результат сохранен: " ++ output_file fs ++ [newline]) ],
             Ok tt)
        | Raise e => (report ++ checked ++ closing, Raise e)
        end
      else (report ++ checked ++ closing, Ok tt)
  end.

(** [img_file.suffix.lower() in SUPPORTED_FORMATS] *)
Definition supported (img_file : str) : bool :=
  existsb (eqt (lower_str U (path_suffix fs img_file))) SUPPORTED_FORMATS.

(** The loop of [main] over the folder's entries; an exception leaves the
    loop. *)
Fixpoint folder_loop (files : list str) (check_errors : bool)
  : list event * outcome unit :=
  match files with
  | [] => ([], Ok tt)
  | img_file :: rest =>
      if supported img_file then
        let announce := Print ([newline] ++ u " Обработка: " ++ path_name fs img_file) in
        match process_image img_file check_errors false with
        | (ev, Ok _) =>
            let '(ev', r) := folder_loop rest check_errors in
            (announce :: ev ++ ev', r)
        | (ev, Raise e) => (announce :: ev, Raise e)
        end
      else folder_loop rest check_errors
  end.

(** [main], after [parse_args] *)
Definition main (args : Args) : list event :=
  if negb (given (args_image args)) && negb (given (args_folder args)) then
    [PrintHelp; Exit 1]
  else
    let '(ev, r) :=
      if given (args_image args) then
        process_image (default [] (args_image args))
                      (negb (args_no_check args)) (args_output args)
      else
        folder_loop (glob_all fs (default [] (args_folder args)))
                    (negb (args_no_check args)) in
    match r with
    | Ok _ => ev
    | Raise e => ev ++ [Print (u " Ошибка: " ++ e)]
    end.
End Application.

(** The kinds of issue the passes of [check_text] create *)
Definition hyphenation_count (errors : list issue) : nat :=
  count_type "hyphenation_error" errors.

(** A file system for evaluation: two pictures and a note in the folder,
    writes succeed. *)
Definition demo_files : Files :=
  {| output_file := u "output/result.txt";
     write_text := fun _ _ => Ok tt;
     glob_all := fun _ => [u "in/a.PNG"; u "in/notes.txt"; u "in/b.jpg"];
     path_suffix := fun p => drop (length p - 4) p;
     path_name := fun p => drop 3 p |}.

(** An engine that fails in the contrast transform. *)
Definition failing_contrast : Vision nat :=
  {| path_exists := fun _ => true;
     imread := fun _ => Some 0;
     cvtColor_gray := fun _ => Ok 1;
     clahe_apply := fun _ => Raise (u "cv2.error");
     threshold_otsu := fun _ => Ok 3;
     adaptiveThreshold := fun _ => Ok 4;
     morphologyEx_close := fun _ => Ok 5;
     fastNlMeansDenoising := fun _ => Ok 6;
     filter2D_sharpen := fun _ => Ok 7;
     image_to_string := fun _ => Ok [] |}.

(** * Properties *)

(** ** Lists *)

Lemma elem_of_flat_map {A B} (f : A → list B) (l : list A) (y : B) :
  y ∈ flat_map f l ↔ ∃ x, y ∈ f x ∧ x ∈ l.
Proof.
  rewrite list_elem_of_In, in_flat_map. split.
  - intros (x & Hx & Hy). exists x. by rewrite !list_elem_of_In.
  - intros (x & Hy & Hx). exists x. by rewrite <- !list_elem_of_In.
Qed.

Lemma elem_of_map {A B} (f : A → B) (l : list A) (y : B) :
  y ∈ map f l ↔ ∃ x, y = f x ∧ x ∈ l.
Proof. apply (list_elem_of_fmap f). Qed.

(** ** Recognition selection *)

Section Selection.
Implicit Types (t acc best : str) (texts : list str).

Lemma keep_longer_cases acc t :
  (len acc < len t ∧ keep_longer acc t = t)
  ∨ (len t ≤ len acc ∧ keep_longer acc t = acc).
Proof.
  unfold keep_longer. destruct (Nat.ltb_spec (len acc) (len t)); [left|right]; done.
Qed.

Lemma fold_keep_longer texts : ∀ acc,
  let best := fold_left keep_longer texts acc in
  (best = acc ∧ ∀ t, t ∈ texts → len t ≤ len acc)
  ∨ (∃ pre post, texts = pre ++ best :: post
                 ∧ len acc < len best
                 ∧ (∀ t, t ∈ pre → len t < len best)
                 ∧ (∀ t, t ∈ post → len t ≤ len best)).
Proof.
  induction texts as [|x texts IH]; intros acc; simpl.
  - left. split; [done|]. intros t Ht. by apply elem_of_nil in Ht.
  - destruct (keep_longer_cases acc x) as [[Hlt ->]|[Hle ->]].
    + destruct (IH x) as [[Hb Hall]|(pre & post & Htx & Hlen & Hpre & Hpost)].
      * right. exists [], texts. rewrite Hb. repeat split; try done.
        intros t Ht. by apply elem_of_nil in Ht.
      * right. exists (x :: pre), post. rewrite Htx at 1.
        repeat split; [lia|..|done].
        intros t [->|Ht]%elem_of_cons; [done|by apply Hpre].
    + destruct (IH acc) as [[Hb Hall]|(pre & post & Htx & Hlen & Hpre & Hpost)].
      * left. split; [done|].
        intros t [->|Ht]%elem_of_cons; [done|by apply Hall].
      * right. exists (x :: pre), post. rewrite Htx at 1.
        repeat split; [done|..|done].
        intros t [->|Ht]%elem_of_cons; [lia|by apply Hpre].
Qed.

Lemma select_best_upper texts t : t ∈ texts → len t ≤ len (select_best texts).
Proof.
  intros Ht. unfold select_best.
  destruct (fold_keep_longer texts []) as [[Hb Hall]|(pre & post & Htx & Hlen & Hpre & Hpost)].
  - rewrite Hb. by apply Hall.
  - rewrite Htx in Ht.
    apply elem_of_app in Ht as [Ht|[->|Ht]%elem_of_cons];
      [apply Hpre in Ht; lia|done|by apply Hpost].
Qed.

Lemma select_best_first texts :
  texts ≠ [] →
  ∃ pre post, texts = pre ++ select_best texts :: post
              ∧ ∀ t, t ∈ pre → len t < len (select_best texts).
Proof.
  intros Hne. unfold select_best.
  destruct (fold_keep_longer texts []) as [[Hb Hall]|(pre & post & Htx & Hlen & Hpre & Hpost)].
  - destruct texts as [|x texts]; [done|].
    exists [], texts. rewrite Hb. split.
    + assert (len x ≤ len (@nil char)) as Hx by (apply Hall; left).
      destruct x; [done|simpl in Hx; lia].
    + intros t Ht. by apply elem_of_nil in Ht.
  - exists pre, post. split; done.
Qed.
End Selection.

(** C1 (as the code has it): the selection loop compares the raw lengths of
    the extracted texts, before trimming.  When the file exists and variant
    generation returns, the reported text is the trimmed text of the variant
    whose untrimmed text is longest, and of the earliest such variant on a
    tie. *)
Theorem recognize_text_keeps_longest_raw {image} (cv : Vision image)
    (image_path : str) (images : list image) :
  path_exists cv image_path = true →
  _preprocess_image cv image_path = Ok images →
  let texts := map (_recognize_with_tesseract cv) images in
  let best := select_best texts in
  recognize_text cv image_path
  = OcrSuccess (strip best) (len (strip best)) (count_words false (strip best))
  ∧ (∀ t, t ∈ texts → len t ≤ len best)
  ∧ (texts ≠ [] →
     ∃ pre post, texts = pre ++ best :: post ∧ ∀ t, t ∈ pre → len t < len best).
Proof.
  intros Hex Hpre texts best. split; [|split].
  - unfold recognize_text. rewrite Hex, Hpre. reflexivity.
  - intros t Ht. by apply select_best_upper.
  - apply select_best_first.
Qed.

Lemma recognize_text_keeps_longest_raw_witness :
  recognize_text padded_baseline (u "scan.png") = OcrSuccess (u "a") 1 1.
Proof.
  destruct (recognize_text_keeps_longest_raw padded_baseline (u "scan.png")
              [1; 2; 3; 4; 5; 6; 7] eq_refl eq_refl) as [H _].
  exact H.
Defined.

(** C1 (as stated) fails: the baseline's text is longer only by trailing
    line breaks, it is kept, and its trimmed text is shorter than the
    trimmed text of the second variant. *)
Lemma trimmed_length_not_selected :
  ¬ selects_longest_trimmed padded_baseline (u "scan.png").
Proof.
  intros H.
  destruct (H [1; 2; 3; 4; 5; 6; 7] eq_refl) as (pre & winner & post & _ & (n & w & Hres) & Hmax & _);
    [done|].
  assert (recognize_text padded_baseline (u "scan.png") = OcrSuccess (u "a") 1 1)
    as E by (vm_compute; reflexivity).
  rewrite E in Hres. injection Hres as Hs _ _.
  specialize (Hmax 2). rewrite <- Hs in Hmax.
  assert (2 ∈ [1; 2; 3; 4; 5; 6; 7]) as Hin by (right; left).
  apply Hmax in Hin. vm_compute in Hin. lia.
Qed.

(** ** Variant generation *)

(** C8 (as the code has it): an image that cannot be loaded does not make
    variant generation fail; it returns the empty sequence, and recognition
    of an existing file then reports success with empty text.  When the
    image loads and generation returns, the sequence has exactly seven
    entries, the first of which is the grayscale baseline. *)
Theorem preprocess_image_variants {image} (cv : Vision image) (image_path : str) :
  (imread cv image_path = None →
     _preprocess_image cv image_path = Ok []
     ∧ (path_exists cv image_path = true →
        recognize_text cv image_path = OcrSuccess [] 0 0))
  ∧ (∀ img versions,
       imread cv image_path = Some img →
       _preprocess_image cv image_path = Ok versions →
       length versions = 7
       ∧ ∃ gray, cvtColor_gray cv img = Ok gray ∧ head versions = Some gray).
Proof.
  split.
  - intros Hnone.
    assert (_preprocess_image cv image_path = Ok []) as Hpre
      by (unfold _preprocess_image; by rewrite Hnone).
    split; [done|]. intros Hex.
    unfold recognize_text. rewrite Hex, Hpre. reflexivity.
  - intros img versions Himg. unfold _preprocess_image. rewrite Himg.
    unfold mbind, outcome_bind.
    destruct (cvtColor_gray cv img) as [gray|]; [|done].
    destruct (clahe_apply cv gray); [|done].
    destruct (threshold_otsu cv gray); [|done].
    destruct (adaptiveThreshold cv gray); [|done].
    destruct (morphologyEx_close cv gray); [|done].
    destruct (fastNlMeansDenoising cv gray); [|done].
    destruct (filter2D_sharpen cv gray); [|done].
    intros [= <-]. split; [done|]. by exists gray.
Qed.

Lemma preprocess_image_variants_witness :
  _preprocess_image undecodable (u "scan.png") = Ok []
  ∧ length [1; 2; 3; 4; 5; 6; 7] = 7.
Proof.
  split.
  - destruct (preprocess_image_variants undecodable (u "scan.png")) as [H _].
    exact (proj1 (H eq_refl)).
  - destruct (preprocess_image_variants padded_baseline (u "scan.png")) as [_ H].
    exact (proj1 (H 0 [1; 2; 3; 4; 5; 6; 7] eq_refl eq_refl)).
Defined.

(** C8 (as stated) fails: for a file that exists but cannot be decoded,
    variant generation returns normally. *)
Lemma undecodable_image_does_not_fail :
  ¬ fails_when_undecodable undecodable (u "scan.png").
Proof.
  intros H. destruct (H eq_refl) as [e He]. discriminate He.
Qed.

(** ** [str.replace] *)

Section Replace.
Implicit Types (s old new p rest : str).

Lemma eqc_eq (a b : char) : eqc a b = true ↔ a = b.
Proof. unfold eqc. apply N.eqb_eq. Qed.

Lemma eqc_refl (a : char) : eqc a a = true.
Proof. by apply eqc_eq. Qed.

Lemma eqt_eq (a b : str) : eqt a b = true ↔ a = b.
Proof.
  revert b. induction a as [|x a IH]; intros [|y b]; simpl; try done.
  rewrite andb_true_iff, eqc_eq, IH. split; [by intros [-> ->]|by intros [= -> ->]].
Qed.

Lemma is_prefix_app p rest : is_prefix p (p ++ rest) = true.
Proof. induction p as [|a p IH]; simpl; [done|]. by rewrite eqc_refl, IH. Qed.

Lemma is_prefix_inv p s : is_prefix p s = true → s = p ++ drop (length p) s.
Proof.
  revert s. induction p as [|a p IH]; intros [|b s]; simpl; try done.
  intros [->%eqc_eq Hp]%andb_true_iff. f_equal. by apply IH.
Qed.

Lemma contains_prefix old s : is_prefix old s = true → contains old s = true.
Proof. intros H. destruct s; simpl; by rewrite H. Qed.

Lemma contains_app old pre post : contains old (pre ++ old ++ post) = true.
Proof.
  induction pre as [|c pre IH]; simpl.
  - apply contains_prefix, is_prefix_app.
  - rewrite IH. apply orb_true_r.
Qed.

Lemma contains_cons old c s :
  contains old (c :: s) = is_prefix old (c :: s) || contains old s.
Proof. reflexivity. Qed.

Lemma replace_go_skip old new count s : ∀ k,
  replace_go old new count k s = replace_go old new count 0 (drop k s).
Proof.
  induction s as [|c s IH]; intros [|k]; simpl; done.
Qed.


Lemma replace_go_hit old new count c s :
  old ≠ [] → is_prefix old (c :: s) = true → count_left count = true →
  replace_go old new count 0 (c :: s)
  = new ++ replace_go old new (count_pred count) 0 (drop (length old) (c :: s)).
Proof.
  intros Hold Hp Hc. simpl replace_go. rewrite Hc, Hp. simpl.
  rewrite replace_go_skip. by destruct old.
Qed.

Lemma no_start_nil old follow : no_start old [] follow.
Proof. intros k Hk. simpl in Hk. lia. Qed.

Lemma no_start_cons old c p follow :
  is_prefix old (c :: p ++ follow) = false →
  no_start old p follow → no_start old (c :: p) follow.
Proof. intros H0 H [|k] Hk; simpl in *; [done|]. apply H. lia. Qed.


Lemma leftmost_pieces_nonempty old pieces : leftmost_pieces old pieces → pieces ≠ [].
Proof. by destruct pieces. Qed.

Lemma replace_go_all_spec old new : old ≠ [] → ∀ n s, length s ≤ n →
  replaced_everywhere old new s (replace_go old new None 0 s).
Proof.
  intros Hold. induction n as [|n IH]; intros s Hn.
  - destruct s; [|simpl in Hn; lia].
    exists [[]]. repeat split. simpl. by destruct old.
  - destruct s as [|c s].
    { exists [[]]. repeat split. simpl. by destruct old. }
    destruct (is_prefix old (c :: s)) eqn:Hp.
    + rewrite replace_go_hit by done. simpl count_pred.
      assert (length (drop (length old) (c :: s)) ≤ n) as Hlen.
      { destruct old; [done|]. simpl. rewrite length_drop. simpl in Hn. lia. }
      destruct (IH _ Hlen) as (ps & Hlm & Hs & Hr).
      exists ([] :: ps). destruct ps as [|p ps]; [done|].
      split; [|split].
      * split; [apply no_start_nil|done].
      * change (join old ([] :: p :: ps)) with (old ++ join old (p :: ps)).
        rewrite <- Hs. by apply is_prefix_inv.
      * change (join new ([] :: p :: ps)) with (new ++ join new (p :: ps)).
        by rewrite <- Hr.
    + change (replace_go old new None 0 (c :: s))
        with (if true && is_prefix old (c :: s)
              then new ++ replace_go old new None (pred (length old)) s
              else c :: replace_go old new None 0 s).
      rewrite Hp. simpl andb. cbv iota.
      assert (length s ≤ n) as Hlen by (simpl in Hn; lia).
      destruct (IH _ Hlen) as (ps & Hlm & Hs & Hr).
      destruct ps as [|p ps]; [done|].
      exists ((c :: p) :: ps). destruct ps as [|q ps].
      * simpl in *. subst s. rewrite Hr. repeat split.
        rewrite Hp, Hlm. done.
      * destruct Hlm as [Hns Hlm]. split; [|split].
        -- split; [|done]. apply no_start_cons; [|done].
           change (join old (p :: q :: ps)) with (p ++ old ++ join old (q :: ps)) in Hs.
           by rewrite <- Hs.
        -- change (join old (p :: q :: ps)) with (p ++ old ++ join old (q :: ps)) in Hs.
           change (join old ((c :: p) :: q :: ps))
             with (c :: p ++ old ++ join old (q :: ps)).
           by rewrite Hs.
        -- change (join new (p :: q :: ps)) with (p ++ new ++ join new (q :: ps)) in Hr.
           change (join new ((c :: p) :: q :: ps))
             with (c :: p ++ new ++ join new (q :: ps)).
           by rewrite Hr.
Qed.

(** [replace(old, new)] rewrites every occurrence a left-to-right scan
    finds. *)
Lemma py_replace_all s old new :
  old ≠ [] → replaced_everywhere old new s (py_replace s old new None).
Proof.
  intros Hold. unfold py_replace. destruct old as [|o old]; [done|].
  by apply (replace_go_all_spec (o :: old) new Hold (length s)).
Qed.
End Replace.

(** ** Issue counts *)

Section Counts.
Implicit Types (counts : gmap string nat) (errors : list issue).

Lemma sum_counts_step_comm (j1 j2 : string) (z1 z2 y : nat) :
  z1 + (z2 + y) = z2 + (z1 + y).
Proof. lia. Qed.

Lemma sum_counts_fresh counts k v :
  counts !! k = None → sum_counts (<[k := v]> counts) = v + sum_counts counts.
Proof.
  intros Hk. unfold sum_counts.
  apply (map_fold_insert_L (fun _ v acc => v + acc)); [|done].
  intros; apply sum_counts_step_comm; done.
Qed.

Lemma sum_counts_bump counts k :
  sum_counts (<[k := default 0 (counts !! k) + 1]> counts) = sum_counts counts + 1.
Proof.
  destruct (counts !! k) as [v|] eqn:Hk; simpl.
  - rewrite <- (insert_delete_eq counts k (v + 1)).
    rewrite sum_counts_fresh by apply lookup_delete_eq.
    rewrite <- (insert_delete_id counts k v Hk) at 2.
    rewrite sum_counts_fresh by apply lookup_delete_eq. lia.
  - rewrite sum_counts_fresh by done. lia.
Qed.

Lemma sum_counts_fold errors : ∀ counts,
  sum_counts
    (fold_left
       (fun counts error =>
          <[type error := default 0 (counts !! type error) + 1]> counts)
       errors counts)
  = sum_counts counts + length errors.
Proof.
  induction errors as [|e errors IH]; intros counts; simpl; [lia|].
  rewrite IH, sum_counts_bump. lia.
Qed.

Lemma count_error_types_total errors :
  sum_counts (_count_error_types errors) = length errors.
Proof.
  unfold _count_error_types. rewrite sum_counts_fold.
  unfold sum_counts. by rewrite map_fold_empty.
Qed.
End Counts.

(** C9: in every result of [check_text], [error_count] is the length of
    [errors], and the counts in [error_types] add up to [error_count]. *)
Theorem check_text_counts (U : UnicodeTable) (self : ErrorChecker) (text : str)
    (check_grammar check_ocr_errors : bool) :
  let r := check_text U self text check_grammar check_ocr_errors in
  error_count r = length (errors r)
  ∧ sum_counts (error_types r) = error_count r.
Proof.
  simpl. split; [done|]. apply count_error_types_total.
Qed.

(** ** The grammar pass *)

Section Grammar.
Implicit Types (self : ErrorChecker) (e : issue) (m : lt_match).

Lemma grammar_span_inv (text : str) m found :
  grammar_span text m = Ok found →
  (found = []
   ∧ (kept_by_category m = false
      ∨ (kept_by_category m = true ∧ replacements m = Ok [])))
  ∨ (∃ sug rest off len_,
       kept_by_category m = true
       ∧ replacements m = Ok (sug :: rest)
       ∧ offset m = Ok off ∧ mlength m = Ok len_
       ∧ found = [grammar_issue (slice off (off + len_) text) sug]).
Proof.
  unfold grammar_span, kept_by_category, mbind, outcome_bind.
  destruct (category m) as [cat|]; [|done].
  destruct (grammar_category cat); [|intros [= <-]; left; by split; [|left]].
  destruct (replacements m) as [[|sug rest]|]; [| |done].
  - intros [= <-]. left. split; [done|]. by right.
  - destruct (offset m) as [off|]; [|done].
    destruct (mlength m) as [len_|]; [|done].
    intros [= <-]. right. by exists sug, rest, off, len_.
Qed.

Lemma grammar_loop_inv (text : str) (matches : list lt_match) : ∀ acc,
  ∃ found,
    grammar_loop text matches acc = acc ++ found
    ∧ ∀ e, e ∈ found → ∃ o sug, e = grammar_issue o sug.
Proof.
  induction matches as [|m matches IH]; intros acc.
  { exists []. rewrite app_nil_r. split; [done|]. by intros e ?%elem_of_nil. }
  simpl. destruct (grammar_span text m) as [new|] eqn:Hspan.
  - destruct (IH (acc ++ new)) as (found & Heq & Hall).
    exists (new ++ found). split; [by rewrite Heq, app_assoc|].
    intros e [He|He]%elem_of_app; [|by apply Hall].
    apply grammar_span_inv in Hspan
      as [[-> _]|(sug & rest & off & len_ & _ & _ & _ & _ & ->)].
    + by apply elem_of_nil in He.
    + apply list_elem_of_singleton in He as ->. by eexists _, _.
  - exists []. rewrite app_nil_r. split; [done|]. by intros e ?%elem_of_nil.
Qed.




Lemma check_grammar_issue self (text : str) e :
  e ∈ _check_grammar self text → ∃ o sug, e = grammar_issue o sug.
Proof.
  unfold _check_grammar.
  destruct (negb (has_language_tool self)); [by intros ?%elem_of_nil|].
  destruct (lt self) as [tool|]; [|by intros ?%elem_of_nil].
  destruct (check tool text) as [matches|]; [|by intros ?%elem_of_nil].
  destruct (grammar_loop_inv text matches []) as (found & -> & Hall).
  simpl. apply Hall.
Qed.

Lemma check_grammar_confidence self (text : str) e :
  e ∈ _check_grammar self text → confidence e = Some (8 # 10)%Q.
Proof. by intros (o & sug & ->)%check_grammar_issue. Qed.


Lemma apply_confident_unchanged (t : str) errors :
  (∀ e, e ∈ errors → confidence e = Some (8 # 10)%Q) →
  apply_confident t errors = t.
Proof.
  revert t. induction errors as [|e errors IH]; intros t Hall; [done|].
  simpl. unfold confident at 1.
  rewrite (Hall e) by left. simpl.
  apply IH. intros e' He'. apply Hall. by right.
Qed.
End Grammar.

(** C10: the grammar pass never changes the corrected text.  Its issues all
    carry confidence 0.8, which does not exceed 0.8, so the text after the
    pass is the text before it, while the issues are appended to the
    list. *)
Theorem grammar_pass_keeps_text (self : ErrorChecker) (check_grammar : bool)
    (t : str) (errors : list issue) :
  (grammar_pass self check_grammar (t, errors)).1 = t
  ∧ (grammar_pass self check_grammar (t, errors)).2
    = errors ++ (if check_grammar && has_language_tool self
                 then _check_grammar self t else []).
Proof.
  unfold grammar_pass.
  destruct (check_grammar && has_language_tool self); simpl.
  - split; [|done]. apply apply_confident_unchanged.
    intros e. apply check_grammar_confidence.
  - by rewrite app_nil_r.
Qed.




(** ** Engines that are missing or failing *)

Section Degradation.
Context (U : UnicodeTable).
Implicit Types (self : ErrorChecker) (t text : str) (errors : list issue).

Lemma step_keeps_instance self c : (step U self c).1 = self.
Proof. by destruct c. Qed.

Lemma run_keeps_instance calls : ∀ self,
  (run U self calls).1 = self
  ∧ (run U self calls).2 = map (fun c => (step U self c).2) calls.
Proof.
  induction calls as [|c calls IH]; intros self; [done|].
  simpl. destruct (step U self c) as [self' r] eqn:Hstep.
  assert (self' = self) as -> by (by rewrite <- (step_keeps_instance self c), Hstep).
  destruct (IH self) as [H1 H2].
  destruct (run U self calls) as [self'' rs]. simpl in *. by subst.
Qed.

Lemma spelling_loop_stops sp pre w rest msg : ∀ errors,
  spell_candidates sp w = Raise msg →
  (∀ x, x ∈ pre → ∃ cs, spell_candidates sp x = Ok cs) →
  spelling_loop sp (pre ++ w :: rest) errors = spelling_loop sp pre errors.
Proof.
  induction pre as [|x pre IH]; intros errors Hw Hpre; simpl.
  - by rewrite Hw.
  - destruct (Hpre x) as [cs Hcs]; [left|]. rewrite Hcs.
    destruct cs; apply IH; try done; intros y Hy; apply Hpre; by right.
Qed.
End Degradation.

(** C7 (as the code has it): an engine that cannot be loaded in [__init__]
    leaves its pass switched off, no later method call switches it back on,
    and the pass then leaves text and issues untouched.  When [lt.check]
    raises, the grammar pass yields no issues and [check_text] returns what
    it returns with the grammar pass off, spelling pass included.  When
    [spell.unknown] raises, the spelling pass yields no issues; when a
    [spell.candidates] lookup raises, the loop stops and the issues found
    before that lookup are kept. *)
Theorem engine_failures_degrade (U : UnicodeTable) :
  (∀ language load_spell load_lt msg calls,
     let no_lt := init language load_spell (Raise msg) in
     let no_spell := init language (Raise msg) load_lt in
     (run U no_lt calls).1 = no_lt
     ∧ (run U no_lt calls).2 = map (fun c => (step U no_lt c).2) calls
     ∧ (∀ check_grammar st, grammar_pass no_lt check_grammar st = st)
     ∧ (run U no_spell calls).1 = no_spell
     ∧ (run U no_spell calls).2 = map (fun c => (step U no_spell c).2) calls
     ∧ (∀ check_grammar st, spelling_pass U no_spell check_grammar st = st))
  ∧ (∀ self tool (text : str) check_grammar check_ocr_errors msg,
       lt self = Some tool →
       check tool (before_grammar U self text check_ocr_errors).1 = Raise msg →
       _check_grammar self (before_grammar U self text check_ocr_errors).1 = []
       ∧ check_text U self text check_grammar check_ocr_errors
         = check_text U (without_grammar self) text check_grammar check_ocr_errors
       ∧ success (check_text U self text check_grammar check_ocr_errors) = true)
  ∧ (∀ self sp (t : str) check_grammar errors msg,
       spell self = Some sp →
       unknown sp (findall_cyr_words U t) = Raise msg →
       _check_spelling U self t = []
       ∧ spelling_pass U self check_grammar (t, errors) = (t, errors))
  ∧ (∀ sp pre w rest errors msg,
       spell_candidates sp w = Raise msg →
       (∀ x, x ∈ pre → ∃ cs, spell_candidates sp x = Ok cs) →
       spelling_loop sp (pre ++ w :: rest) errors = spelling_loop sp pre errors).
Proof.
  split; [|split; [|split]].
  - intros language load_spell load_lt msg calls no_lt no_spell.
    destruct (run_keeps_instance U calls no_lt) as [H1 H2].
    destruct (run_keeps_instance U calls no_spell) as [H3 H4].
    repeat split; try done.
    + intros check_grammar [t errors]. unfold grammar_pass. simpl.
      by rewrite andb_false_r.
    + intros check_grammar [t errors]. unfold spelling_pass. simpl.
      by rewrite andb_false_r.
  - intros self tool text check_grammar check_ocr_errors msg Hlt Hraise.
    assert (_check_grammar self (before_grammar U self text check_ocr_errors).1 = []) as Hnone.
    { unfold _check_grammar. rewrite Hlt, Hraise. by destruct (negb _). }
    split; [done|]. split; [|done].
    unfold check_text.
    change (context_pass U self (ocr_pass U text check_ocr_errors (hyphenation_pass U (text, []))))
      with (before_grammar U self text check_ocr_errors).
    change (context_pass U (without_grammar self)
              (ocr_pass U text check_ocr_errors (hyphenation_pass U (text, []))))
      with (before_grammar U self text check_ocr_errors).
    destruct (before_grammar U self text check_ocr_errors) as [t errors] eqn:Hst.
    simpl in Hnone.
    assert (grammar_pass self check_grammar (t, errors) = (t, errors)) as ->.
    { unfold grammar_pass. destruct (check_grammar && has_language_tool self); [|done].
      rewrite Hnone. simpl. by rewrite app_nil_r. }
    assert (grammar_pass (without_grammar self) check_grammar (t, errors) = (t, errors)) as ->.
    { unfold grammar_pass. simpl. by rewrite andb_false_r. }
    done.
  - intros self sp t check_grammar errors msg Hsp Hraise.
    assert (_check_spelling U self t = []) as Hnone.
    { unfold _check_spelling. rewrite Hsp, Hraise. by destruct (negb _). }
    split; [done|]. unfold spelling_pass.
    destruct (check_grammar && has_spellchecker self); [|done].
    rewrite Hnone. simpl. by rewrite app_nil_r.
  - intros sp pre w rest errors msg. apply spelling_loop_stops.
Qed.

Lemma engine_failures_degrade_witness :
  _check_grammar failing_grammar_checker
    (before_grammar basic_table failing_grammar_checker (u "кот дом") true).1 = []
  ∧ spelling_loop flaky_spell ([u "кот"] ++ u "дом" :: []) []
    = spelling_loop flaky_spell [u "кот"] [].
Proof.
  destruct (engine_failures_degrade basic_table) as (_ & H2 & _ & H4). split.
  - exact (proj1 (H2 failing_grammar_checker failing_tool (u "кот дом") true true
                    (u "connection refused") eq_refl eq_refl)).
  - apply (H4 flaky_spell [u "кот"] (u "дом") [] [] (u "lookup failed") eq_refl).
    intros x ->%list_elem_of_singleton. by exists [u "кит"].
Defined.

(** C7 (as stated) fails for the spelling pass: the lookup of the second
    unknown word raises, and the issue found for the first word stays in the
    result. *)
Lemma raising_lookup_keeps_earlier_issues :
  ¬ raising_call_means_no_issues basic_table flaky_checker (u "кот дом").
Proof.
  intros H.
  specialize (H flaky_spell [u "кот"; u "дом"] (u "дом") (u "lookup failed")
                eq_refl eq_refl eq_refl).
  assert (length (_check_spelling basic_table flaky_checker (u "кот дом")) = 1)
    as Hlen by (vm_compute; reflexivity).
  rewrite H in Hlen; [done| |done]. right; left.
Qed.

(** ** The confusable-character pass *)

Section Confusables.
Implicit Types (w word s : str) (a b c : char).

Lemma replace_char s a b :
  py_replace s [a] [b] None = map (swap_char a b) s.
Proof.
  unfold py_replace. induction s as [|c s IH]; [done|].
  simpl. rewrite andb_true_r. unfold swap_char at 1.
  destruct (eqc a c) eqn:E.
  - apply eqc_eq in E as ->. rewrite eqc_refl. simpl. by rewrite IH.
  - destruct (eqc c a) eqn:E'; [apply eqc_eq in E' as ->; by rewrite eqc_refl in E|].
    by rewrite IH.
Qed.

Lemma contains_char a w : contains [a] w = false → ∀ c, c ∈ w → eqc c a = false.
Proof.
  induction w as [|x w IH]; intros H c Hc; [by apply elem_of_nil in Hc|].
  simpl in H. rewrite andb_true_r in H.
  apply orb_false_iff in H as [Hx Hw].
  apply elem_of_cons in Hc as [->|Hc]; [|by apply IH].
  destruct (eqc x a) eqn:E; [|done].
  apply eqc_eq in E as ->. by rewrite eqc_refl in Hx.
Qed.

Lemma map_ext_elem (f g : char → char) w :
  (∀ c, c ∈ w → f c = g c) → map f w = map g w.
Proof.
  intros H. apply map_ext_in. intros c Hc. apply H. by apply list_elem_of_In.
Qed.

Lemma replacements_table :
  ocr_replacements
  = [([48], [1054]); ([49], [1030]); ([51], [1047]); ([108], [1110])]%N.
Proof. reflexivity. Qed.

Lemma guarded_replace (flag : bool) a b s :
  (if flag then py_replace s [a] [b] None else s)
  = map (fun c => if flag then swap_char a b c else c) s.
Proof.
  destruct flag; [apply replace_char|]. symmetry. apply List.map_id.
Qed.

Lemma fix_char_steps (f0 f1 f3 fl : bool) c :
  (f0 = false → eqc c 48%N = false) → (f1 = false → eqc c 49%N = false) →
  (f3 = false → eqc c 51%N = false) → (fl = false → eqc c 108%N = false) →
  (if fl then swap_char 108%N 1110%N else id)
    ((if f3 then swap_char 51%N 1047%N else id)
       ((if f1 then swap_char 49%N 1030%N else id)
          ((if f0 then swap_char 48%N 1054%N else id) c)))
  = fix_char c.
Proof.
  intros H0 H1 H3 Hl. unfold fix_char.
  destruct (eqc c 48%N) eqn:E0.
  { apply eqc_eq in E0 as ->.
    destruct f0; [|by specialize (H0 eq_refl)]. by destruct f1, f3, fl. }
  assert ((if f0 then swap_char 48%N 1054%N else id) c = c) as ->.
  { destruct f0; [unfold swap_char; by rewrite E0|done]. }
  destruct (eqc c 49%N) eqn:E1.
  { apply eqc_eq in E1 as ->.
    destruct f1; [|by specialize (H1 eq_refl)]. by destruct f3, fl. }
  assert ((if f1 then swap_char 49%N 1030%N else id) c = c) as ->.
  { destruct f1; [unfold swap_char; by rewrite E1|done]. }
  destruct (eqc c 51%N) eqn:E3.
  { apply eqc_eq in E3 as ->.
    destruct f3; [|by specialize (H3 eq_refl)]. by destruct fl. }
  assert ((if f3 then swap_char 51%N 1047%N else id) c = c) as ->.
  { destruct f3; [unfold swap_char; by rewrite E3|done]. }
  destruct (eqc c 108%N) eqn:E4.
  { apply eqc_eq in E4 as ->.
    by destruct fl; [|specialize (Hl eq_refl)]. }
  destruct fl; [unfold swap_char; by rewrite E4|done].
Qed.

(** The four sequential replacements amount to one pass of [fix_char]. *)
Lemma correct_word_pointwise word : correct_word word = map fix_char word.
Proof.
  unfold correct_word. rewrite replacements_table. cbn [fold_left].
  rewrite !guarded_replace, !map_map.
  apply map_ext_elem. intros c Hc.
  rewrite <- (fix_char_steps (contains [48%N] word) (contains [49%N] word)
                (contains [51%N] word) (contains [108%N] word) c).
  - unfold id. by destruct (contains [48%N] word), (contains [49%N] word),
      (contains [51%N] word), (contains [108%N] word).
  - intros H. by apply (contains_char 48%N word).
  - intros H. by apply (contains_char 49%N word).
  - intros H. by apply (contains_char 51%N word).
  - intros H. by apply (contains_char 108%N word).
Qed.

Lemma fix_char_mapped c : mapped c = false → fix_char c = c.
Proof.
  unfold mapped, fix_char. intros H.
  repeat apply orb_false_iff in H as [H ?].
  by rewrite H, H0, H1, H2.
Qed.

Lemma fix_char_changes c : mapped c = true → fix_char c ≠ c.
Proof.
  unfold mapped, fix_char. intros H.
  destruct (eqc c 48%N) eqn:E0; [apply eqc_eq in E0 as ->; done|].
  destruct (eqc c 49%N) eqn:E1; [apply eqc_eq in E1 as ->; done|].
  destruct (eqc c 51%N) eqn:E3; [apply eqc_eq in E3 as ->; done|].
  destruct (eqc c 108%N) eqn:El; [apply eqc_eq in El as ->; done|].
  done.
Qed.

Lemma word_changed w : eqt (map fix_char w) w = negb (existsb mapped w).
Proof.
  induction w as [|c w IH]; [done|]. simpl. rewrite IH.
  destruct (mapped c) eqn:Hm; simpl.
  - destruct (eqc (fix_char c) c) eqn:E; [|done].
    apply eqc_eq in E. by apply fix_char_changes in Hm.
  - by rewrite fix_char_mapped, eqc_refl.
Qed.

Lemma ocr_issues_filter (tokens : list str) :
  flat_map
    (fun word =>
       if eqt (correct_word word) word then []
       else [ocr_issue word (correct_word word)]) tokens
  = map (fun w => ocr_issue w (map fix_char w))
        (List.filter (existsb mapped) tokens).
Proof.
  induction tokens as [|w tokens IH]; [done|]. simpl.
  rewrite IH, correct_word_pointwise, word_changed.
  by destruct (existsb mapped w).
Qed.
End Confusables.

(** C4 (as the code has it): the pass emits one issue for every token
    occurrence that contains a mapped character, in token order, so a token
    that occurs twice is reported twice.  The suggestion of an issue is the
    token with each character sent through the fixed mapping: the same
    length, mapped characters replaced, all other characters unchanged.
    Tokens without a mapped character produce no issue. *)
Theorem ocr_errors_per_token (U : UnicodeTable) (text : str) :
  _check_ocr_errors U text
  = map (fun w => ocr_issue w (map fix_char w))
        (List.filter (existsb mapped) (findall_words U text))
  ∧ (∀ e, e ∈ _check_ocr_errors U text →
       type e = "ocr_error"
       ∧ existsb mapped (original e) = true
       ∧ length (suggestion e) = length (original e)
       ∧ ∀ i c, original e !! i = Some c →
                suggestion e !! i = Some (fix_char c)
                ∧ (mapped c = false → fix_char c = c))
  ∧ (Forall (fun w => existsb mapped w = false) (findall_words U text) →
     _check_ocr_errors U text = []).
Proof.
  assert (_check_ocr_errors U text
          = map (fun w => ocr_issue w (map fix_char w))
                (List.filter (existsb mapped) (findall_words U text))) as Heq
    by apply ocr_issues_filter.
  split; [done|]. split.
  - rewrite Heq. intros e (w & -> & Hw)%elem_of_map.
    apply list_elem_of_In, filter_In in Hw as [_ Hw]. simpl.
    split; [done|]. split; [done|]. split; [by rewrite length_map|].
    intros i c Hi. split; [|apply fix_char_mapped].
    change (map fix_char w) with (fix_char <$> w).
    by rewrite list_lookup_fmap, Hi.
  - rewrite Heq. clear Heq. generalize (findall_words U text).
    intros ws Hall.
    induction Hall as [|w ws Hw _ IH]; [done|]. simpl. by rewrite Hw.
Qed.

Lemma ocr_errors_per_token_witness :
  _check_ocr_errors basic_table (u "Привет мир") = [].
Proof.
  destruct (ocr_errors_per_token basic_table (u "Привет мир")) as (_ & _ & H).
  apply H. vm_compute. repeat constructor.
Defined.

(** C4 (as stated) fails in its last part: in "3 3" the one affected token
    occurs twice and is reported twice. *)
Lemma repeated_token_reported_twice :
  ¬ one_issue_per_distinct_token basic_table (u "3 3").
Proof.
  unfold one_issue_per_distinct_token. vm_compute. discriminate.
Qed.

(** ** Scanning *)

Section Scanning.
Context (U : UnicodeTable).
Implicit Types (s pre rest text : str) (m : option char → str → option nat).

(** Every reported match is a place where the matcher succeeded. *)
Lemma scan_sound m s : ∀ skip i prev j g,
  (j, g) ∈ scan m skip i prev s →
  ∃ pre rest before n,
    s = pre ++ rest ∧ j = i + length pre
    ∧ m before rest = Some n ∧ g = take n rest.
Proof.
  induction s as [|c s IH]; intros skip i prev j g Hin; simpl in Hin.
  { by apply elem_of_nil in Hin. }
  assert (∀ skip' prev', (j, g) ∈ scan m skip' (S i) prev' s →
          ∃ pre rest before n,
            c :: s = pre ++ rest ∧ j = i + length pre
            ∧ m before rest = Some n ∧ g = take n rest) as Hlater.
  { intros skip' prev' H.
    destruct (IH _ _ _ _ _ H) as (pre & rest & before & n & -> & -> & Hm & ->).
    exists (c :: pre), rest, before, n. repeat split; [simpl; lia|done]. }
  destruct skip as [|k]; [|by eapply Hlater].
  destruct (m prev (c :: s)) as [n|] eqn:Hm; [|by eapply Hlater].
  apply elem_of_cons in Hin as [[= -> ->]|Hin]; [|by eapply Hlater].
  exists [], (c :: s), prev, n. repeat split; [simpl; lia|done].
Qed.

(** A scan that is not in the middle of a match reports something when
    the matcher succeeds somewhere, whatever precedes that place. *)
Lemma scan_nonempty m pre rest n : ∀ i prev,
  (∀ before, m before rest = Some n) → rest ≠ [] →
  scan m 0 i prev (pre ++ rest) ≠ [].
Proof.
  induction pre as [|c pre IH]; intros i prev Hm Hne; simpl.
  - destruct rest as [|c rest]; [done|]. simpl. by rewrite Hm.
  - destruct (m prev (c :: pre ++ rest)); [done|]. by apply IH.
Qed.

Lemma m_hyphenation_inv before rest n :
  m_hyphenation before rest = Some n →
  ∃ c1 c2 post,
    rest = [c1; hyphen; newline; c2] ++ post ∧ n = 4
    ∧ cyr_letter c1 = true ∧ cyr_letter c2 = true.
Proof.
  unfold m_hyphenation.
  destruct rest as [|c1 [|h [|l [|c2 post]]]]; try done.
  destruct (cyr_letter c1) eqn:H1; [|done].
  destruct (eqc h hyphen) eqn:Hh; [|done].
  destruct (eqc l newline) eqn:Hl; [|done].
  destruct (cyr_letter c2) eqn:H2; [|done].
  apply eqc_eq in Hh as ->. apply eqc_eq in Hl as ->.
  intros [= <-]. by exists c1, c2, post.
Qed.

Lemma slice_middle (a mid b : str) :
  slice (length a) (length a + length mid) (a ++ mid ++ b) = mid.
Proof.
  unfold slice. rewrite drop_app_length.
  replace (length a + length mid - length a) with (length mid) by lia.
  apply take_app_length.
Qed.

Lemma slice_of (a mid b : str) text i j :
  text = a ++ mid ++ b → i = length a → j = length a + length mid →
  slice i j text = mid.
Proof. intros -> -> ->. apply slice_middle. Qed.

(** The left loop stops at the start of the run of letters that ends just
    before the match. *)
Lemma scan_left_spec pre : ∀ rest,
  ∃ before left,
    pre = before ++ left
    ∧ scan_left U (pre ++ rest) (length pre) = length before
    ∧ forallb (isalpha U) left = true
    ∧ ∀ c, last before = Some c → isalpha U c = false.
Proof.
  induction pre as [|x pre IH] using rev_ind; intros rest.
  - exists [], []. by repeat split.
  - rewrite length_app. simpl length.
    replace (length pre + 1) with (S (length pre)) by lia.
    simpl scan_left.
    assert (((pre ++ [x]) ++ rest) !! length pre = Some x) as ->.
    { rewrite <- app_assoc. simpl. by apply list_lookup_middle. }
    destruct (isalpha U x) eqn:Hx.
    + destruct (IH (x :: rest)) as (before & left & -> & Hs & Hl & Hb).
      exists before, (left ++ [x]). repeat split.
      * by rewrite app_assoc.
      * rewrite <- Hs. f_equal. by rewrite <- !app_assoc.
      * rewrite forallb_app, Hl. simpl. by rewrite Hx.
      * done.
    + exists (pre ++ [x]), []. repeat split.
      * by rewrite app_nil_r.
      * rewrite length_app. simpl. lia.
      * intros c. rewrite last_snoc. by intros [= <-].
Qed.

Lemma run_length_spec (p : char → bool) s :
  forallb p (take (run_length p s) s) = true
  ∧ ∀ c, head (drop (run_length p s) s) = Some c → p c = false.
Proof.
  induction s as [|x s [IH1 IH2]]; [done|]. simpl.
  destruct (p x) eqn:Hx; simpl.
  - by rewrite Hx, IH1.
  - split; [done|]. by intros c [= <-].
Qed.

(** What the pass records for a match of the pattern. *)
Lemma hyphenation_issue_place pre c1 c2 post :
  let text := pre ++ [c1; hyphen; newline; c2] ++ post in
  ∃ before left right after,
    pre = before ++ left
    ∧ post = right ++ after
    ∧ text = before ++ left ++ [c1; hyphen; newline; c2] ++ right ++ after
    ∧ forallb (isalpha U) left = true
    ∧ forallb (isalpha U) right = true
    ∧ (∀ c, last before = Some c → isalpha U c = false)
    ∧ (∀ c, head after = Some c → isalpha U c = false)
    ∧ original (hyphenation_issue U text (length pre, [c1; hyphen; newline; c2]))
      = left ++ [c1; hyphen; newline; c2] ++ right
    ∧ suggestion (hyphenation_issue U text (length pre, [c1; hyphen; newline; c2]))
      = left ++ [c1; c2] ++ right.
Proof.
  intros text.
  destruct (scan_left_spec pre ([c1; hyphen; newline; c2] ++ post))
    as (before & left & Hpre & Hstart & Hleft & Hbefore).
  destruct (run_length_spec (isalpha U) post) as [Hright Hafter].
  set (r := run_length (isalpha U) post) in *.
  exists before, left, (take r post), (drop r post).
  assert (length (take r post) = r) as Hr.
  { rewrite length_take. apply Nat.min_l.
    subst r. clear. induction post as [|x post IH]; simpl; [done|].
    destruct (isalpha U x); simpl; lia. }
  assert (text = before ++ left ++ [c1; hyphen; newline; c2]
                   ++ take r post ++ drop r post) as Htext.
  { subst text. rewrite Hpre, take_drop. by rewrite <- app_assoc. }
  assert (scan_right U text (length pre + 4) = length pre + 4 + r) as Hend.
  { unfold scan_right. f_equal. subst text r. f_equal.
    replace (length pre + 4) with (length (pre ++ [c1; hyphen; newline; c2]))
      by (rewrite length_app; done).
    rewrite app_assoc. by rewrite drop_app_length. }
  split; [done|]. split; [by rewrite take_drop|].
  split; [done|]. split; [done|]. split; [done|]. split; [done|]. split; [done|].
  unfold hyphenation_issue. cbn [original suggestion fst snd length].
  fold text in Hstart. rewrite Hend, Hstart.
  assert (length pre = length before + length left) as Hlen
    by (by rewrite Hpre, length_app).
  assert (slice (length before) (length pre + 4 + r) text
          = left ++ [c1; hyphen; newline; c2] ++ take r post) as ->.
  { apply (slice_of before _ (drop r post)).
    - rewrite Htext. by rewrite <- !app_assoc.
    - done.
    - rewrite !length_app, Hr. simpl. lia. }
  assert (slice (length before) (length pre) text = left) as ->.
  { by apply (slice_of before _ ([c1; hyphen; newline; c2] ++ take r post ++ drop r post)). }
  assert (slice (length pre) (length pre + 1) text = [c1]) as ->.
  { by apply (slice_of pre _ ([hyphen; newline; c2] ++ post)). }
  assert (slice (length pre + 3) (length pre + 4) text = [c2]) as ->.
  { apply (slice_of (pre ++ [c1; hyphen; newline]) _ post).
    - subst text. by rewrite <- app_assoc.
    - rewrite length_app. simpl. lia.
    - rewrite length_app. simpl. lia. }
  assert (slice (length pre + 4) (length pre + 4 + r) text = take r post) as ->.
  { apply (slice_of (pre ++ [c1; hyphen; newline; c2]) _ (drop r post)).
    - subst text. by rewrite take_drop, <- app_assoc.
    - rewrite length_app. simpl. lia.
    - rewrite length_app, Hr. simpl. lia. }
  done.
Qed.
Lemma hyphenation_issue_spec pre c1 c2 post :
  let text := pre ++ [c1; hyphen; newline; c2] ++ post in
  ∃ before left right after,
    text = before ++ left ++ [c1; hyphen; newline; c2] ++ right ++ after
    ∧ forallb (isalpha U) left = true
    ∧ forallb (isalpha U) right = true
    ∧ (∀ c, last before = Some c → isalpha U c = false)
    ∧ (∀ c, head after = Some c → isalpha U c = false)
    ∧ original (hyphenation_issue U text (length pre, [c1; hyphen; newline; c2]))
      = left ++ [c1; hyphen; newline; c2] ++ right
    ∧ suggestion (hyphenation_issue U text (length pre, [c1; hyphen; newline; c2]))
      = left ++ [c1; c2] ++ right.
Proof.
  intros text.
  destruct (hyphenation_issue_place pre c1 c2 post)
    as (before & left & right & after & _ & _ & H).
  by exists before, left, right, after.
Qed.

Lemma scan_here m i prev (c : char) (s : str) :
  scan m 0 i prev (c :: s)
  = match m prev (c :: s) with
    | Some n => (i, take n (c :: s)) :: scan m (pred n) (S i) (Some c) s
    | None => scan m 0 (S i) (Some c) s
    end.
Proof. reflexivity. Qed.

Lemma scan_skip m k i prev (c : char) (s : str) :
  scan m (S k) i prev (c :: s) = scan m k (S i) (Some c) s.
Proof. reflexivity. Qed.

Lemma inside_match_tail (k : nat) (x : char) (s : str) :
  inside_match (S k) (x :: s) → inside_match k s.
Proof.
  destruct k as [|[|[|k]]]; simpl; [done| | |done].
  - intros (c & r & [= -> ->] & Hc). by exists c, r.
  - intros (c & r & [= -> ->] & Hc). by exists c, r.
Qed.

(** [finditer] reports every place where the pattern stands, except a
    place whose first letter is the last letter of the match reported just
    before it. *)
Lemma scan_hyphenation_complete c1 c2 (post : str) :
  cyr_letter c1 = true → cyr_letter c2 = true →
  ∀ (pre : str) skip i prev,
    inside_match skip (pre ++ [c1; hyphen; newline; c2] ++ post) →
    (i + length pre, [c1; hyphen; newline; c2])
    ∈ scan m_hyphenation skip i prev (pre ++ [c1; hyphen; newline; c2] ++ post)
    ∨ (∃ pre' c0,
         pre = pre' ++ [c0; hyphen; newline] ∧ cyr_letter c0 = true
         ∧ (i + length pre', [c0; hyphen; newline; c1])
           ∈ scan m_hyphenation skip i prev
               (pre ++ [c1; hyphen; newline; c2] ++ post))
    ∨ skip = S (length pre).
Proof.
  intros H1 H2. induction pre as [|x pre IH]; intros skip i prev Hinv.
  - simpl app in *. destruct skip as [|[|[|[|k]]]]; simpl in Hinv.
    + left. simpl. rewrite H1, H2. simpl. rewrite Nat.add_0_r. left.
    + right. by right.
    + destruct Hinv as (c & r & Heq & _). injection Heq as -> _. done.
    + destruct Hinv as (c & r & Heq & _). injection Heq as -> _. done.
    + done.
  - change ((x :: pre) ++ [c1; hyphen; newline; c2] ++ post)
      with (x :: (pre ++ [c1; hyphen; newline; c2] ++ post)) in *.
    set (rest := pre ++ [c1; hyphen; newline; c2] ++ post) in *.
    assert (∀ skip' prev',
              inside_match skip' rest →
              (S i + length pre, [c1; hyphen; newline; c2])
              ∈ scan m_hyphenation skip' (S i) prev' rest
              ∨ (∃ pre' c0,
                   pre = pre' ++ [c0; hyphen; newline] ∧ cyr_letter c0 = true
                   ∧ (S i + length pre', [c0; hyphen; newline; c1])
                     ∈ scan m_hyphenation skip' (S i) prev' rest)
              ∨ skip' = S (length pre)) as Hlater by (intros; by apply IH).
    replace (i + length (x :: pre)) with (S i + length pre) by (simpl; lia).
    destruct skip as [|k].
    + rewrite scan_here. destruct (m_hyphenation prev (x :: rest)) as [n|] eqn:Hm.
      * apply m_hyphenation_inv in Hm as (a & b & post' & Hrest & -> & Ha & Hb).
        injection Hrest as <- Hrest.
        destruct (Hlater 3 (Some x)) as [Hin|[(pre' & c0 & -> & Hc0 & Hin)|Hlen]].
        -- rewrite Hrest. simpl. by exists b, post'.
        -- left. by right.
        -- right. left. exists (x :: pre'), c0. split; [done|]. split; [done|].
           replace (i + length (x :: pre')) with (S i + length pre')
             by (simpl; lia).
           by right.
        -- right. left. exists [], x.
           destruct pre as [|y [|z [|? ?]]]; simpl in Hlen; try lia.
           subst rest. simpl in Hrest. injection Hrest as -> -> -> _.
           split; [done|]. split; [done|]. simpl. rewrite Nat.add_0_r. left.
      * destruct (Hlater 0 (Some x) I) as [Hin|[(pre' & c0 & -> & Hc0 & Hin)|Hlen]].
        -- by left.
        -- right. left. exists (x :: pre'), c0. split; [done|]. split; [done|].
           replace (i + length (x :: pre')) with (S i + length pre')
             by (simpl; lia).
           exact Hin.
        -- done.
    + rewrite scan_skip.
      destruct (Hlater k (Some x)) as [Hin|[(pre' & c0 & -> & Hc0 & Hin)|Hlen]].
      * by eapply inside_match_tail.
      * by left.
      * right. left. exists (x :: pre'), c0. split; [done|]. split; [done|].
        replace (i + length (x :: pre')) with (S i + length pre')
          by (simpl; lia).
        exact Hin.
      * right. right. simpl. by rewrite Hlen.
Qed.
End Scanning.

(** ** The hyphenation pass *)

Lemma apply_all_step (t : str) (e : issue) (errors : list issue) :
  original e ≠ [] →
  ∃ t', apply_all t (e :: errors) = apply_all t' errors
        ∧ replaced_everywhere (original e) (suggestion e) t t'.
Proof.
  intros Hne. eexists. split; [reflexivity|]. by apply py_replace_all.
Qed.

Lemma fix_word_hyphenation_inv (U : UnicodeTable) (text : str) (e : issue) :
  e ∈ _fix_word_hyphenation U text →
  ∃ pre c1 c2 post,
    text = pre ++ [c1; hyphen; newline; c2] ++ post
    ∧ cyr_letter c1 = true ∧ cyr_letter c2 = true
    ∧ e = hyphenation_issue U text (length pre, [c1; hyphen; newline; c2]).
Proof.
  unfold _fix_word_hyphenation, finditer.
  intros ([j g] & -> & Hin)%elem_of_map.
  apply scan_sound in Hin as (pre & rest & before & n & -> & -> & Hm & ->).
  apply m_hyphenation_inv in Hm as (c1 & c2 & post & -> & -> & H1 & H2).
  by exists pre, c1, c2, post.
Qed.

(** C3: every issue of the hyphenation pass comes from a place where a
    Cyrillic letter, a hyphen, a line break and a Cyrillic letter follow one
    another; its original is that place widened to the letters around it,
    and its suggestion is the same word without the hyphen and the line
    break.  A text that contains such a place yields at least one issue.
    Every such place gets its issue, of that shape, unless its first letter
    is the last letter of the place matched just before it, which then has
    the issue.  [check_text] replaces every occurrence of each original in
    turn.  On "чер-\nный" the result is "черный", with no hyphen-newline
    pair left; on "чер-\nный бе-\nлый" both words are repaired. *)
Theorem hyphenation_repairs_words (U : UnicodeTable) (text : str) :
  (∀ e, e ∈ _fix_word_hyphenation U text →
     ∃ before left c1 c2 right after,
       text = before ++ left ++ [c1; hyphen; newline; c2] ++ right ++ after
       ∧ cyr_letter c1 = true ∧ cyr_letter c2 = true
       ∧ forallb (isalpha U) left = true
       ∧ forallb (isalpha U) right = true
       ∧ (∀ c, last before = Some c → isalpha U c = false)
       ∧ (∀ c, head after = Some c → isalpha U c = false)
       ∧ type e = "hyphenation_error"
       ∧ original e = left ++ [c1; hyphen; newline; c2] ++ right
       ∧ suggestion e = left ++ [c1; c2] ++ right)
  ∧ (∀ pre c1 c2 post,
       text = pre ++ [c1; hyphen; newline; c2] ++ post →
       cyr_letter c1 = true → cyr_letter c2 = true →
       _fix_word_hyphenation U text ≠ [])
  ∧ (∀ pre c1 c2 post,
       text = pre ++ [c1; hyphen; newline; c2] ++ post →
       cyr_letter c1 = true → cyr_letter c2 = true →
       hyphenation_issue U text (length pre, [c1; hyphen; newline; c2])
       ∈ _fix_word_hyphenation U text
       ∨ ∃ pre' c0,
           pre = pre' ++ [c0; hyphen; newline] ∧ cyr_letter c0 = true
           ∧ hyphenation_issue U text (length pre', [c0; hyphen; newline; c1])
             ∈ _fix_word_hyphenation U text)
  ∧ (∀ pre c1 c2 post,
       text = pre ++ [c1; hyphen; newline; c2] ++ post →
       ∃ before left right after,
         pre = before ++ left ∧ post = right ++ after
         ∧ forallb (isalpha U) left = true
         ∧ forallb (isalpha U) right = true
         ∧ (∀ c, last before = Some c → isalpha U c = false)
         ∧ (∀ c, head after = Some c → isalpha U c = false)
         ∧ original (hyphenation_issue U text
                       (length pre, [c1; hyphen; newline; c2]))
           = left ++ [c1; hyphen; newline; c2] ++ right
         ∧ suggestion (hyphenation_issue U text
                         (length pre, [c1; hyphen; newline; c2]))
           = left ++ [c1; c2] ++ right)
  ∧ (∀ errors,
       hyphenation_pass U (text, errors)
       = (apply_all text (_fix_word_hyphenation U text),
          errors ++ _fix_word_hyphenation U text))
  ∧ (∀ (t : str) e errors,
       e ∈ _fix_word_hyphenation U text →
       ∃ t', apply_all t (e :: errors) = apply_all t' errors
             ∧ replaced_everywhere (original e) (suggestion e) t t')
  ∧ (let r := check_text basic_table no_engines
                (u "чер-" ++ [newline] ++ u "ный") true true in
     corrected_text r = u "черный"
     ∧ contains [hyphen; newline] (corrected_text r) = false
     ∧ map (fun e => (original e, suggestion e)) (errors r)
       = [(u "чер-" ++ [newline] ++ u "ный", u "черный")])
  ∧ (let r := check_text basic_table no_engines
                (u "чер-" ++ [newline] ++ u "ный бе-" ++ [newline] ++ u "лый")
                true true in
     corrected_text r = u "черный белый"
     ∧ contains [hyphen; newline] (corrected_text r) = false
     ∧ map (fun e => (original e, suggestion e)) (errors r)
       = [(u "чер-" ++ [newline] ++ u "ный", u "черный");
          (u "бе-" ++ [newline] ++ u "лый", u "белый")]).
Proof.
  split; [|split; [|split; [|split; [|split; [|split; [|split]]]]]].
  - intros e (pre & c1 & c2 & post & Htext & H1 & H2 & ->)%fix_word_hyphenation_inv.
    rewrite Htext.
    destruct (hyphenation_issue_spec U pre c1 c2 post)
      as (before & left & right & after & Ht & Hl & Hr & Hb & Ha & Ho & Hs).
    exists before, left, c1, c2, right, after.
    by repeat split.
  - intros pre c1 c2 post -> H1 H2.
    unfold _fix_word_hyphenation, finditer.
    pose proof (scan_nonempty m_hyphenation pre
                  ([c1; hyphen; newline; c2] ++ post) 4 0 None) as Hne.
    destruct (scan _ _ _ _ _); [|done].
    exfalso. apply Hne; [|done|done].
    intros before. simpl. by rewrite H1, H2.
  - intros pre c1 c2 post -> H1 H2.
    unfold _fix_word_hyphenation, finditer.
    destruct (scan_hyphenation_complete c1 c2 post H1 H2 pre 0 0 None I)
      as [Hin|[(pre' & c0 & -> & Hc0 & Hin)|Hlen]]; [| |done].
    + left. apply elem_of_map. by eexists.
    + right. exists pre', c0. split; [done|]. split; [done|].
      apply elem_of_map. by eexists.
  - intros pre c1 c2 post ->.
    destruct (hyphenation_issue_place U pre c1 c2 post)
      as (before & left & right & after & Hpre & Hpost & _ & Hl & Hr & Hb & Ha & Ho & Hs).
    by exists before, left, right, after.
  - done.
  - intros t e errors (pre & c1 & c2 & post & Htext & H1 & H2 & ->)%fix_word_hyphenation_inv.
    apply apply_all_step.
    destruct (hyphenation_issue_spec U pre c1 c2 post)
      as (before & left & right & after & _ & _ & _ & _ & _ & Ho & _).
    rewrite Htext, Ho. by destruct left.
  - vm_compute. done.
  - vm_compute. done.
Qed.

Lemma hyphenation_repairs_words_witness :
  (∃ left c1 c2 right,
     original (hyphenation_issue basic_table (u "чер-" ++ [newline] ++ u "ный")
                 (2, u "р-" ++ [newline] ++ u "н"))
     = left ++ [c1; hyphen; newline; c2] ++ right)
  ∧ _fix_word_hyphenation basic_table (u "чер-" ++ [newline] ++ u "ный") ≠ []
  ∧ (let two_words :=
       u "чер-" ++ [newline] ++ u "ный бе-" ++ [newline] ++ u "лый" in
     hyphenation_issue basic_table two_words (2, u "р-" ++ [newline] ++ u "н")
     ∈ _fix_word_hyphenation basic_table two_words
     ∧ hyphenation_issue basic_table two_words (10, u "е-" ++ [newline] ++ u "л")
       ∈ _fix_word_hyphenation basic_table two_words).
Proof.
  destruct (hyphenation_repairs_words basic_table (u "чер-" ++ [newline] ++ u "ный"))
    as (H1 & H2 & _).
  destruct (hyphenation_repairs_words basic_table
              (u "чер-" ++ [newline] ++ u "ный бе-" ++ [newline] ++ u "лый"))
    as (_ & _ & H3 & _).
  split; [|split; [|split]]; cycle 2.
  - destruct (H3 (u "че") 1088%N 1085%N (u "ый бе-" ++ [newline] ++ u "лый")
                eq_refl eq_refl eq_refl)
      as [Hin|(pre' & c0 & Hpre & _)]; [exact Hin|].
    exfalso. apply (f_equal last) in Hpre.
    change (pre' ++ [c0; hyphen; newline])
      with (pre' ++ [c0; hyphen] ++ [newline]) in Hpre.
    rewrite (app_assoc pre'), last_snoc in Hpre. vm_compute in Hpre.
    discriminate Hpre.
  - destruct (H3 (u "чер-" ++ [newline] ++ u "ный б") 1077%N 1083%N (u "ый")
                eq_refl eq_refl eq_refl)
      as [Hin|(pre' & c0 & Hpre & _)]; [exact Hin|].
    exfalso. apply (f_equal last) in Hpre.
    change (pre' ++ [c0; hyphen; newline])
      with (pre' ++ [c0; hyphen] ++ [newline]) in Hpre.
    rewrite (app_assoc pre'), last_snoc in Hpre. vm_compute in Hpre.
    discriminate Hpre.
  - destruct (H1 (hyphenation_issue basic_table (u "чер-" ++ [newline] ++ u "ный")
                    (2, u "р-" ++ [newline] ++ u "н")))
      as (before & left & c1 & c2 & right & after & _ & _ & _ & _ & _ & _ & _ & _ & Ho & _).
    + vm_compute. left.
    + by exists left, c1, c2, right.
  - apply (H2 (u "че") 1088%N 1085%N (u "ый")); reflexivity.
Defined.

(** ** Which text the confusable-character pass scans *)

(** C2 (the code at the failing input): [check_text] runs
    [_check_ocr_errors] on its argument [text], not on the text the
    hyphenation pass produced.  On "чер-\nны3" the hyphenation pass produces
    "черны3", whose only token is "черны3", but the reported
    confusable-character issue is for "ны3", a token of the original
    text. *)
Theorem ocr_pass_scans_original_text :
  (∀ U (text : str) (st : pass_state),
     ocr_pass U text true st
     = (apply_all st.1 (_check_ocr_errors U text), st.2 ++ _check_ocr_errors U text))
  ∧ (let text := u "чер-" ++ [newline] ++ u "ны3" in
     let st1 := hyphenation_pass basic_table (text, []) in
     st1.1 = u "черны3"
     ∧ map original (_check_ocr_errors basic_table st1.1) = [u "черны3"]
     ∧ map original
         (List.filter (fun e => String.eqb (type e) "ocr_error")
            (errors (check_text basic_table no_engines text true true)))
       = [u "ны3"]).
Proof.
  split.
  - by intros U text [t errors].
  - vm_compute. done.
Qed.

(** ** The context pass *)

Section Literal.
Context (U : UnicodeTable) (wrong : str).
Hypothesis wrong_nonempty : wrong ≠ [].
Hypothesis wrong_borderless : borderless wrong = true.
Hypothesis case_matches :
  ∀ p c, p ∈ wrong → lower U c = lower U p → ieq U p c = true.
Hypothesis matches_distinct :
  ∀ p p' c, p ∈ wrong → p' ∈ wrong →
            ieq U p c = true → ieq U p' c = true → p = p'.

Lemma same_letters_length occ : same_letters U wrong occ → length occ = length wrong.
Proof. intros H. symmetry. by eapply Forall2_length. Qed.

Lemma same_letters_lower_gen (pat occ : str) :
  same_letters U pat occ → lower_str U occ = lower_str U pat.
Proof.
  unfold same_letters, lower_str.
  induction 1 as [|p c ps cs Hpc _ IH]; [done|]. simpl. by rewrite Hpc, IH.
Qed.

Lemma same_letters_lower occ :
  same_letters U wrong occ → lower_str U occ = lower_str U wrong.
Proof. apply same_letters_lower_gen. Qed.

Lemma same_letters_iprefix_gen (pat occ post : str) :
  (∀ p, p ∈ pat → p ∈ wrong) →
  same_letters U pat occ → iprefix U pat (occ ++ post) = true.
Proof.
  unfold same_letters. intros Hsub H.
  induction H as [|p c ps cs Hpc _ IH]; [done|]. simpl.
  rewrite case_matches; [|apply Hsub; left|done]. simpl.
  apply IH. intros q Hq. apply Hsub. by right.
Qed.

Lemma same_letters_iprefix occ post :
  same_letters U wrong occ → iprefix U wrong (occ ++ post) = true.
Proof. by apply same_letters_iprefix_gen. Qed.

(** Two pattern pieces that match the same text agree with each
    other. *)
Lemma iprefix_common (a : str) : ∀ (b s : str),
  (∀ p, p ∈ a → p ∈ wrong) → (∀ p, p ∈ b → p ∈ wrong) →
  iprefix U a s = true → iprefix U b s = true → length a ≤ length b →
  is_prefix a b = true.
Proof.
  induction a as [|x a IH]; intros b s Ha Hb Hpa Hpb Hlen; [done|].
  destruct b as [|y b]; [simpl in Hlen; lia|].
  destruct s as [|c s]; [done|]. simpl in *.
  apply andb_true_iff in Hpa as [Hx Hpa]. apply andb_true_iff in Hpb as [Hy Hpb].
  assert (x = y) as ->.
  { apply (matches_distinct x y c); [apply Ha; left|apply Hb; left|done|done]. }
  rewrite eqc_refl. simpl.
  apply (IH b s); [| |done|done|lia].
  - intros p Hp. apply Ha. by right.
  - intros p Hp. apply Hb. by right.
Qed.

Lemma borderless_from_spec (pat : str) : ∀ (suf : str) k,
  borderless_from pat suf = true → k < length suf →
  is_prefix (drop k suf) pat = false.
Proof.
  induction suf as [|x suf IH]; intros k Hb Hk; [simpl in Hk; lia|].
  simpl in Hb. apply andb_true_iff in Hb as [Hx Hb].
  destruct k as [|k]; [by apply negb_true_iff in Hx|].
  simpl. apply IH; [done|simpl in Hk; lia].
Qed.

Lemma drop_tail (l : str) k : drop (S k) l = drop k (tail l).
Proof. by destruct l, k. Qed.

Lemma no_border k : 0 < k → k < length wrong →
  is_prefix (drop k wrong) wrong = false.
Proof.
  intros H0 Hk. destruct k as [|k]; [lia|]. rewrite drop_tail.
  apply borderless_from_spec; [done|].
  clear -Hk. destruct wrong; simpl in *; lia.
Qed.

Lemma elem_of_drop_wrong k p : p ∈ drop k wrong → p ∈ wrong.
Proof. rewrite <- (take_drop k wrong) at 2. intros H. apply elem_of_app. by right. Qed.

Lemma iprefix_tail (pat : str) k x (s : str) c :
  drop k pat = x :: drop (S k) pat →
  iprefix U (drop k pat) (c :: s) = true →
  iprefix U (drop (S k) pat) s = true.
Proof. intros ->. simpl. by intros [_ ?]%andb_true_iff. Qed.

Lemma drop_cons_lt (pat : str) k :
  k < length pat → ∃ x, drop k pat = x :: drop (S k) pat.
Proof.
  revert k. induction pat as [|y pat IH]; intros k Hk; [simpl in Hk; lia|].
  destruct k as [|k]; [by exists y|]. simpl. apply IH. simpl in Hk. lia.
Qed.

(** [finditer] reports every place where the text spells the phrase up
    to letter case: an earlier match cannot overlap it. *)
Lemma scan_finds occ post : same_letters U wrong occ → ∀ pre skip i prev,
  (skip = 0
   ∨ (skip < length wrong
      ∧ iprefix U (drop (length wrong - skip) wrong) (pre ++ occ ++ post) = true)) →
  (i + length pre, occ)
  ∈ scan (m_literal_icase U wrong) skip i prev (pre ++ occ ++ post).
Proof.
  intros Hocc.
  pose proof (same_letters_iprefix occ post Hocc) as Hhit.
  pose proof (same_letters_length occ Hocc) as Hlen.
  induction pre as [|c pre IH]; intros skip i prev Hinv.
  - simpl app in *. destruct skip as [|k].
    + destruct occ as [|c occ]; [by destruct wrong|].
      simpl. unfold m_literal_icase at 1.
      change (c :: occ ++ post) with ((c :: occ) ++ post).
      rewrite Hhit. apply elem_of_cons. left. f_equal; [lia|].
      by rewrite <- Hlen, take_app_length.
    + exfalso. destruct Hinv as [?|[Hlt Hin]]; [done|].
      assert (is_prefix (drop (length wrong - S k) wrong) wrong = true) as Hb.
      { apply (iprefix_common _ _ (occ ++ post)); try done.
        - apply elem_of_drop_wrong.
        - rewrite length_drop. lia. }
      rewrite no_border in Hb; [done|lia|lia].
  - simpl app. simpl scan.
    replace (i + length (c :: pre)) with (S i + length pre) by (simpl; lia).
    destruct skip as [|k].
    + unfold m_literal_icase at 1.
      destruct (iprefix U wrong (c :: pre ++ occ ++ post)) eqn:Hp.
      * right. apply IH.
        destruct wrong as [|x w] eqn:Hw; [done|]. simpl length. simpl pred.
        destruct w as [|y w]; [by left|]. right. split; [simpl; lia|].
        replace (S (length (y :: w)) - length (y :: w)) with 1 by lia.
        simpl in Hp. by apply andb_true_iff in Hp as [_ Hp].
      * apply IH. by left.
    + apply IH. destruct Hinv as [?|[Hlt Hin]]; [done|].
      destruct k as [|k]; [by left|]. right. split; [lia|].
      destruct (drop_cons_lt wrong (length wrong - S (S k))) as [x Hx]; [lia|].
      replace (length wrong - S k) with (S (length wrong - S (S k))) by lia.
      by eapply iprefix_tail.
Qed.

Lemma context_issues_found (text pre occ post correct : str) :
  text = pre ++ occ ++ post → same_letters U wrong occ →
  context_issue occ correct ∈ context_issues_for U text (wrong, correct).
Proof.
  intros -> Hocc. unfold context_issues_for.
  assert (contains (lower_str U wrong) (lower_str U (pre ++ occ ++ post)) = true) as ->.
  { unfold lower_str. rewrite !flat_map_app.
    fold (lower_str U occ). rewrite (same_letters_lower occ Hocc).
    apply contains_app. }
  apply elem_of_map. exists (0 + length pre, occ). split; [done|].
  apply scan_finds; [done|by left].
Qed.
End Literal.

Lemma iprefix_length (U : UnicodeTable) (pat : str) : ∀ s : str,
  iprefix U pat s = true → length pat ≤ length s.
Proof.
  induction pat as [|p pat IH]; intros [|c s] H; simpl in *; try done; [lia|].
  apply andb_true_iff in H as [_ H]. apply IH in H. lia.
Qed.

Lemma context_issue_original (U : UnicodeTable) (self : ErrorChecker)
    (text : str) (e : issue) :
  Forall (fun entry => entry.1 ≠ []) (context_errors self) →
  e ∈ _check_context_errors U self text →
  type e = "context_error" ∧ original e ≠ []
  ∧ ∃ wrong, (wrong, suggestion e) ∈ context_errors self
             ∧ length (original e) = length wrong
             ∧ iprefix U wrong (original e) = true.
Proof.
  intros Hne. unfold _check_context_errors.
  intros ([wrong correct] & He & Hentry)%elem_of_flat_map.
  rewrite Forall_forall in Hne. specialize (Hne _ Hentry). simpl in Hne.
  unfold context_issues_for in He.
  destruct (contains _ _); [|by apply elem_of_nil in He].
  apply elem_of_map in He as ([j g] & -> & Hin).
  apply scan_sound in Hin as (pre & rest & before & n & -> & -> & Hm & ->).
  unfold m_literal_icase in Hm.
  destruct (iprefix U wrong rest) eqn:Hp; [|done]. injection Hm as <-.
  pose proof (iprefix_length U wrong rest Hp) as Hlen.
  assert (length (take (length wrong) rest) = length wrong) as Htake
    by (rewrite length_take; lia).
  simpl. split; [done|]. split.
  - intros Hnil. rewrite Hnil in Htake. by destruct wrong.
  - exists wrong. split; [done|]. split; [done|].
    clear -Hp. revert rest Hp.
    induction wrong as [|p w IH]; intros [|c s] Hp; simpl in *; try done.
    apply andb_true_iff in Hp as [-> Hp]. by apply IH.
Qed.

Lemma configured_phrases language load_spell load_lt (wrong correct : str) :
  (wrong, correct) ∈ context_errors (init language load_spell load_lt) →
  wrong ≠ [] ∧ borderless wrong = true.
Proof.
  simpl. intros H.
  repeat (apply elem_of_cons in H as [[= -> ->]|H]; [by vm_compute|]).
  by apply elem_of_nil in H.
Qed.

(** C6: the context pass flags every place where the text spells a
    configured wrong phrase up to letter case, with the configured correct
    phrase as the suggestion, and [check_text] then replaces every
    occurrence of each flagged spelling.  "в нес" and "В НЕС" both become
    "в нее".  (The two assumptions on the tables say that the regex engine
    accepts a character whose lowercase form equals the pattern character's,
    and that no character is accepted for two different characters of the
    phrase.) *)
Theorem context_repair_ignores_case (U : UnicodeTable) :
  (∀ self (text wrong correct pre occ post : str),
     (wrong, correct) ∈ context_errors self →
     wrong ≠ [] → borderless wrong = true →
     (∀ p c, p ∈ wrong → lower U c = lower U p → ieq U p c = true) →
     (∀ p p' c, p ∈ wrong → p' ∈ wrong →
                ieq U p c = true → ieq U p' c = true → p = p') →
     text = pre ++ occ ++ post → same_letters U wrong occ →
     context_issue occ correct ∈ _check_context_errors U self text)
  ∧ (∀ language load_spell load_lt (wrong correct : str),
       (wrong, correct) ∈ context_errors (init language load_spell load_lt) →
       wrong ≠ [] ∧ borderless wrong = true)
  ∧ (∀ self (t : str) errors,
       context_pass U self (t, errors)
       = (apply_all t (_check_context_errors U self t),
          errors ++ _check_context_errors U self t))
  ∧ (∀ self (text t : str) e errors,
       Forall (fun entry => entry.1 ≠ []) (context_errors self) →
       e ∈ _check_context_errors U self text →
       ∃ t', apply_all t (e :: errors) = apply_all t' errors
             ∧ replaced_everywhere (original e) (suggestion e) t t')
  ∧ (let lower_case := check_text basic_table no_engines (u "в нес") true true in
     let upper_case := check_text basic_table no_engines (u "В НЕС") true true in
     let mixed := check_text basic_table no_engines
                    (u "В НЕС, в нес, В НЕС") true true in
     corrected_text lower_case = u "в нее"
     ∧ corrected_text upper_case = u "в нее"
     ∧ map (fun e => (original e, suggestion e)) (errors lower_case)
       = [(u "в нес", u "в нее")]
     ∧ map (fun e => (original e, suggestion e)) (errors upper_case)
       = [(u "В НЕС", u "в нее")]
     ∧ corrected_text mixed = u "в нее, в нее, в нее").
Proof.
  split; [|split; [|split; [|split]]].
  - intros self text wrong correct pre occ post Hentry Hne Hb Hcase Hdist Htext Hocc.
    unfold _check_context_errors. apply elem_of_flat_map.
    exists (wrong, correct). split; [|done].
    by apply (context_issues_found U wrong Hne Hb Hcase Hdist text pre occ post).
  - apply configured_phrases.
  - done.
  - intros self text t e errors Hne He.
    apply apply_all_step.
    by apply (context_issue_original U self text e Hne) in He as (_ & ? & _).
  - vm_compute. done.
Qed.

Lemma context_repair_ignores_case_witness :
  context_issue (u "В НЕС") (u "в нее")
  ∈ _check_context_errors basic_table no_engines (u "Он вошёл В НЕС").
Proof.
  destruct (context_repair_ignores_case basic_table) as (H & _).
  apply (H no_engines (u "Он вошёл В НЕС") (u "в нес") (u "в нее")
           (u "Он вошёл ") (u "В НЕС") []).
  - vm_compute. left.
  - discriminate.
  - reflexivity.
  - intros p c _ Hl. simpl in *. injection Hl as Hl. rewrite Hl. apply N.eqb_refl.
  - intros p p' c Hp Hp' H1 H2.
    apply N.eqb_eq in H1, H2. rewrite <- H2 in H1. clear H2.
    vm_compute in Hp, Hp'.
    repeat (apply elem_of_cons in Hp as [->|Hp]);
      try (by apply elem_of_nil in Hp);
      repeat (apply elem_of_cons in Hp' as [->|Hp']);
      try (by apply elem_of_nil in Hp');
      first [reflexivity | discriminate H1].
  - reflexivity.
  - vm_compute. repeat constructor.
Defined.

(** * Further properties of the code *)

(** ** Trimming and the statistics of [recognize_text] *)

Lemma lstrip_split (s : str) :
  ∃ pre, s = pre ++ lstrip s ∧ forallb isspace pre = true.
Proof.
  induction s as [|c s (pre & Hs & Hpre)]; [by exists []|]. simpl.
  destruct (isspace c) eqn:Hc.
  - exists (c :: pre). simpl. rewrite Hc, Hpre. split; [by f_equal|done].
  - by exists [].
Qed.

Lemma lstrip_head (s : str) c : head (lstrip s) = Some c → isspace c = false.
Proof.
  induction s as [|x s IH]; [done|]. simpl.
  destruct (isspace x) eqn:Hx; [done|]. by intros [= <-].
Qed.

Lemma lstrip_spaces (s : str) : forallb isspace s = true → lstrip s = [].
Proof.
  induction s as [|c s IH]; [done|]. simpl.
  intros [-> Hs]%andb_true_iff. by apply IH.
Qed.

Lemma strip_split (s : str) :
  ∃ pre post, s = pre ++ strip s ++ post
              ∧ forallb isspace pre = true ∧ forallb isspace post = true.
Proof.
  unfold strip.
  destruct (lstrip_split s) as (pre & Hs & Hpre).
  destruct (lstrip_split (rev (lstrip s))) as (post & Hr & Hpost).
  exists pre, (rev post). split; [|split; [done|]].
  - rewrite <- rev_app_distr, <- Hr, rev_involutive. exact Hs.
  - rewrite forallb_forall in *. intros c Hc. apply Hpost. by apply in_rev.
Qed.

Lemma last_rev (l : str) : last (rev l) = head l.
Proof. destruct l as [|x l]; [done|]. simpl. apply last_snoc. Qed.

Lemma head_rev (l : str) : head (rev l) = last l.
Proof. by rewrite <- (rev_involutive l) at 2; rewrite last_rev. Qed.

Lemma strip_last (s : str) c : last (strip s) = Some c → isspace c = false.
Proof.
  unfold strip. rewrite last_rev. apply lstrip_head.
Qed.

Lemma strip_head (s : str) c : head (strip s) = Some c → isspace c = false.
Proof.
  unfold strip. rewrite head_rev.
  destruct (lstrip_split (rev (lstrip s))) as (pre & Hr & _).
  intros Hlast.
  assert (last (rev (lstrip s)) = Some c) as Hl.
  { rewrite Hr. destruct (lstrip (rev (lstrip s))) as [|x l] eqn:E; [done|].
    rewrite last_app. by rewrite Hlast. }
  rewrite last_rev in Hl. by apply lstrip_head in Hl.
Qed.

Lemma strip_spaces (s : str) : forallb isspace s = true → strip s = [].
Proof.
  intros H. unfold strip. by rewrite (lstrip_spaces s H).
Qed.

Lemma count_words_le (s : str) : ∀ in_word, count_words in_word s ≤ length s.
Proof.
  induction s as [|c s IH]; intros in_word; simpl; [done|].
  destruct (isspace c); [specialize (IH false); lia|].
  destruct in_word; specialize (IH true); lia.
Qed.

(** X1: in every successful result of [recognize_text], [characters] is the
    length of [full_text], [full_text] neither starts nor ends with a
    white-space character, and [words] is at most [characters] and is zero
    exactly when [full_text] is empty. *)
Theorem recognize_text_statistics {image} (cv : Vision image)
    (image_path full_text : str) (characters words : nat) :
  recognize_text cv image_path = OcrSuccess full_text characters words →
  characters = len full_text
  ∧ (∀ c, head full_text = Some c → isspace c = false)
  ∧ (∀ c, last full_text = Some c → isspace c = false)
  ∧ words ≤ characters
  ∧ (words = 0 ↔ full_text = []).
Proof.
  unfold recognize_text.
  destruct (negb (path_exists cv image_path)); [done|].
  destruct (_preprocess_image cv image_path) as [images|]; [|done].
  set (best := select_best _). intros [= <- <- <-].
  split; [done|]. split; [apply strip_head|]. split; [apply strip_last|].
  split; [apply count_words_le|].
  pose proof (strip_head best) as Hh.
  destruct (strip best) as [|c s]; [done|]. simpl.
  rewrite (Hh c eq_refl). split; [lia|done].
Qed.

Lemma recognize_text_statistics_witness : 1 = len (u "a").
Proof.
  exact (proj1 (recognize_text_statistics padded_baseline (u "scan.png")
                  (u "a") 1 1 eq_refl)).
Defined.

(** ** Failing transforms and failing recognition *)

(** X2: for an existing file whose image loads, [recognize_text] succeeds
    exactly when the grayscale conversion and all six further transforms
    return; when it fails, the reported error is the message of a transform
    that raised. *)
Theorem recognize_text_needs_every_transform {image} (cv : Vision image)
    (image_path : str) (img : image) :
  path_exists cv image_path = true →
  imread cv image_path = Some img →
  let transforms :=
    [clahe_apply cv; threshold_otsu cv; adaptiveThreshold cv;
     morphologyEx_close cv; fastNlMeansDenoising cv; filter2D_sharpen cv] in
  ((∃ t n w, recognize_text cv image_path = OcrSuccess t n w)
   ↔ ∃ gray, cvtColor_gray cv img = Ok gray
             ∧ ∀ f, f ∈ transforms → ∃ v, f gray = Ok v)
  ∧ (∀ e, recognize_text cv image_path = OcrFailure e →
          cvtColor_gray cv img = Raise e
          ∨ ∃ gray f, cvtColor_gray cv img = Ok gray
                      ∧ f ∈ transforms ∧ f gray = Raise e).
Proof.
  intros Hex Himg transforms.
  unfold recognize_text, _preprocess_image. rewrite Hex, Himg. simpl negb. cbv iota.
  unfold mbind, outcome_bind.
  destruct (cvtColor_gray cv img) as [gray|e0] eqn:Hg.
  2:{ split.
      - split; [by intros (t & n & w & H)|by intros (gray & H & _)].
      - intros e [= <-]. by left. }
  assert (∀ k (f : image → outcome image), transforms !! k = Some f → f ∈ transforms) as Hin.
  { intros k f Hk. by eapply list_elem_of_lookup_2. }
  destruct (clahe_apply cv gray) as [v1|e1] eqn:H1.
  2:{ split.
      - split; [by intros (t & n & w & H)|].
        intros (g & [= <-] & Hall). destruct (Hall _ (Hin 0 _ eq_refl)) as [v Hv]. congruence.
      - intros e [= <-]. right. exists gray, (clahe_apply cv). split; [done|]. split; [|done].
        by apply (Hin 0). }
  destruct (threshold_otsu cv gray) as [v2|e2] eqn:H2.
  2:{ split.
      - split; [by intros (t & n & w & H)|].
        intros (g & [= <-] & Hall). destruct (Hall _ (Hin 1 _ eq_refl)) as [v Hv]. congruence.
      - intros e [= <-]. right. exists gray, (threshold_otsu cv). split; [done|]. split; [|done].
        by apply (Hin 1). }
  destruct (adaptiveThreshold cv gray) as [v3|e3] eqn:H3.
  2:{ split.
      - split; [by intros (t & n & w & H)|].
        intros (g & [= <-] & Hall). destruct (Hall _ (Hin 2 _ eq_refl)) as [v Hv]. congruence.
      - intros e [= <-]. right. exists gray, (adaptiveThreshold cv). split; [done|]. split; [|done].
        by apply (Hin 2). }
  destruct (morphologyEx_close cv gray) as [v4|e4] eqn:H4.
  2:{ split.
      - split; [by intros (t & n & w & H)|].
        intros (g & [= <-] & Hall). destruct (Hall _ (Hin 3 _ eq_refl)) as [v Hv]. congruence.
      - intros e [= <-]. right. exists gray, (morphologyEx_close cv). split; [done|]. split; [|done].
        by apply (Hin 3). }
  destruct (fastNlMeansDenoising cv gray) as [v5|e5] eqn:H5.
  2:{ split.
      - split; [by intros (t & n & w & H)|].
        intros (g & [= <-] & Hall). destruct (Hall _ (Hin 4 _ eq_refl)) as [v Hv]. congruence.
      - intros e [= <-]. right. exists gray, (fastNlMeansDenoising cv). split; [done|]. split; [|done].
        by apply (Hin 4). }
  destruct (filter2D_sharpen cv gray) as [v6|e6] eqn:H6.
  2:{ split.
      - split; [by intros (t & n & w & H)|].
        intros (g & [= <-] & Hall). destruct (Hall _ (Hin 5 _ eq_refl)) as [v Hv]. congruence.
      - intros e [= <-]. right. exists gray, (filter2D_sharpen cv). split; [done|]. split; [|done].
        by apply (Hin 5). }
  split; [|done]. split; [|by eauto].
  intros _. exists gray. split; [done|]. intros f Hf.
  repeat (apply elem_of_cons in Hf as [->|Hf]; [by eauto|]).
  by apply elem_of_nil in Hf.
Qed.

Lemma recognize_text_needs_every_transform_witness :
  ∃ (gray : nat) (f : nat → outcome nat),
    cvtColor_gray failing_contrast 0 = Ok gray ∧ f gray = Raise (u "cv2.error").
Proof.
  destruct (recognize_text_needs_every_transform failing_contrast (u "scan.png") 0
              eq_refl eq_refl) as [_ H].
  destruct (H (u "cv2.error") eq_refl) as [H0|(gray & f & Hg & _ & Hf)];
    [discriminate H0|].
  by exists gray, f.
Defined.

Lemma select_best_in (texts : list str) :
  texts ≠ [] → select_best texts ∈ texts.
Proof.
  intros Hne. destruct (select_best_first texts Hne) as (pre & post & Htx & _).
  rewrite Htx at 2. apply elem_of_app. right. left.
Qed.

Lemma select_best_empty (texts : list str) :
  select_best texts = [] ↔ ∀ t, t ∈ texts → t = [].
Proof.
  split.
  - intros Hb t Ht. pose proof (select_best_upper texts t Ht) as Hle.
    rewrite Hb in Hle. destruct t; [done|simpl in Hle; lia].
  - intros Hall. destruct texts as [|x texts]; [done|].
    apply Hall, select_best_in. done.
Qed.

(** X3: when Tesseract raises or reads only white space on every variant,
    [recognize_text] still succeeds, with empty text and zero counts; and
    the selection loop ends with the empty text exactly when every variant's
    text is empty. *)
Theorem recognize_text_empty_when_nothing_read {image} (cv : Vision image)
    (image_path : str) (images : list image) :
  path_exists cv image_path = true →
  _preprocess_image cv image_path = Ok images →
  ((∀ v, v ∈ images →
      (∃ msg, image_to_string cv v = Raise msg)
      ∨ (∃ t, image_to_string cv v = Ok t ∧ forallb isspace t = true)) →
   recognize_text cv image_path = OcrSuccess [] 0 0)
  ∧ (select_best (map (_recognize_with_tesseract cv) images) = []
     ↔ ∀ v, v ∈ images → _recognize_with_tesseract cv v = []).
Proof.
  intros Hex Hpre. split.
  - intros Hall. unfold recognize_text. rewrite Hex, Hpre. simpl negb. cbv iota.
    set (texts := map (_recognize_with_tesseract cv) images).
    assert (forallb isspace (select_best texts) = true) as Hsp.
    { destruct images as [|v0 images']; [done|].
      assert (select_best texts ∈ texts) as Hin by (by apply select_best_in).
      apply elem_of_map in Hin as (v & -> & Hv).
      unfold _recognize_with_tesseract.
      destruct (Hall v Hv) as [[msg ->]|(t & -> & Ht)]; done. }
    by rewrite (strip_spaces _ Hsp).
  - rewrite select_best_empty. split.
    + intros H v Hv. apply H. apply elem_of_map. by exists v.
    + intros H t (v & -> & Hv)%elem_of_map. by apply H.
Qed.

Lemma recognize_text_empty_when_nothing_read_witness :
  _preprocess_image blank_reader (u "scan.png") = Ok [1; 2; 3; 4; 5; 6; 7]
  ∧ image_to_string blank_reader 1 = Raise (u "TesseractError")
  ∧ image_to_string blank_reader 2 = Ok [32; 10; 12]%N
  ∧ recognize_text blank_reader (u "scan.png") = OcrSuccess [] 0 0.
Proof.
  split; [reflexivity|]. split; [reflexivity|]. split; [reflexivity|].
  apply (recognize_text_empty_when_nothing_read blank_reader (u "scan.png")
           [1; 2; 3; 4; 5; 6; 7] eq_refl eq_refl).
  intros v Hv.
  repeat (apply elem_of_cons in Hv as [->|Hv];
          [first [by left; eexists | by right; eexists]|]).
  by apply elem_of_nil in Hv.
Defined.

(** X4: the length of the text the selection loop keeps does not depend on
    the order in which the variants are recognized. *)
Theorem select_best_length_order_free (texts texts' : list str) :
  Permutation texts texts' →
  len (select_best texts) = len (select_best texts').
Proof.
  assert (∀ l l' : list str, Permutation l l' →
            len (select_best l) ≤ len (select_best l')) as Hle.
  { intros l l' Hp. destruct l as [|x l].
    - apply Permutation_nil in Hp as ->. done.
    - apply select_best_upper.
      apply list_elem_of_In, (Permutation_in _ Hp), list_elem_of_In.
      by apply select_best_in. }
  intros Hp. apply Nat.le_antisymm; apply Hle; [done|by symmetry].
Qed.

Lemma select_best_length_order_free_witness :
  len (select_best [u "ab"; u "abc"]) = len (select_best [u "abc"; u "ab"]).
Proof.
  apply select_best_length_order_free. apply perm_swap.
Defined.

(** ** What the replacement loops of [check_text] can and cannot do *)

Lemma py_replace_absent (s old new : str) (count : option nat) :
  old ≠ [] → contains old s = false → py_replace s old new count = s.
Proof.
  intros Hold. unfold py_replace. destruct old as [|o old]; [done|]. clear Hold.
  induction s as [|c s IH]; [done|].
  rewrite contains_cons. intros [Hp Hc]%orb_false_iff.
  change (replace_go (o :: old) new count 0 (c :: s))
    with (if count_left count && is_prefix (o :: old) (c :: s)
          then new ++ replace_go (o :: old) new (count_pred count)
                        (pred (length (o :: old))) s
          else c :: replace_go (o :: old) new count 0 s).
  rewrite Hp, andb_false_r. by rewrite IH.
Qed.

Lemma join_length_le (old new : str) (pieces : list str) :
  length new ≤ length old →
  length (join new pieces) ≤ length (join old pieces).
Proof.
  intros Hlen. induction pieces as [|p [|q ps] IH]; [done|done|].
  change (join new (p :: q :: ps)) with (p ++ new ++ join new (q :: ps)).
  change (join old (p :: q :: ps)) with (p ++ old ++ join old (q :: ps)).
  rewrite !length_app. lia.
Qed.

Lemma join_length_eq (old new : str) (pieces : list str) :
  length new = length old →
  length (join new pieces) = length (join old pieces).
Proof.
  intros Hlen. induction pieces as [|p [|q ps] IH]; [done|done|].
  change (join new (p :: q :: ps)) with (p ++ new ++ join new (q :: ps)).
  change (join old (p :: q :: ps)) with (p ++ old ++ join old (q :: ps)).
  rewrite !length_app. lia.
Qed.

Lemma apply_all_length_le (errors : list issue) : ∀ t : str,
  Forall (fun e => original e ≠ []
                   ∧ length (suggestion e) ≤ length (original e)) errors →
  length (apply_all t errors) ≤ length t.
Proof.
  induction errors as [|e errors IH]; intros t Hall; [done|].
  apply Forall_cons in Hall as [[Hne Hlen] Hall]. simpl.
  destruct (py_replace_all t (original e) (suggestion e) Hne) as (ps & _ & Ht & Hr).
  etransitivity; [by apply IH|].
  rewrite Hr. rewrite Ht at 1. by apply join_length_le.
Qed.

Lemma apply_all_length_eq (errors : list issue) : ∀ t : str,
  Forall (fun e => original e ≠ []
                   ∧ length (suggestion e) = length (original e)) errors →
  length (apply_all t errors) = length t.
Proof.
  induction errors as [|e errors IH]; intros t Hall; [done|].
  apply Forall_cons in Hall as [[Hne Hlen] Hall]. simpl.
  destruct (py_replace_all t (original e) (suggestion e) Hne) as (ps & _ & Ht & Hr).
  rewrite IH by done.
  rewrite Hr. rewrite Ht at 1. by apply join_length_eq.
Qed.

(** X5: a list of issues none of whose originals occurs in the text leaves
    the text as it is, in the loops that replace every occurrence and in the
    loops that replace the first one. *)
Theorem absent_originals_change_nothing (t : str) (errors : list issue) :
  Forall (fun e => original e ≠ [] ∧ contains (original e) t = false) errors →
  apply_all t errors = t ∧ apply_first t errors = t
  ∧ apply_confident t errors = t.
Proof.
  induction errors as [|e errors IH]; intros Hall; [done|].
  apply Forall_cons in Hall as [[Hne Hc] Hall].
  destruct (IH Hall) as (H1 & H2 & H3). simpl.
  rewrite !py_replace_absent by done.
  split; [done|]. split; [done|]. by destruct (confident e).
Qed.

Lemma absent_originals_change_nothing_witness :
  apply_all (u "кит спит") [sure_issue] = u "кит спит".
Proof.
  apply (absent_originals_change_nothing (u "кит спит") [sure_issue]).
  repeat constructor. discriminate.
Defined.

(** ** Shape of the hyphenation issues *)

(** X6: every hyphenation issue records a four-character match, its
    original contains that match, and its suggestion is exactly two
    characters shorter than its original. *)
Theorem hyphenation_issue_shape (U : UnicodeTable) (s : str) (e : issue) :
  e ∈ _fix_word_hyphenation U s →
  length (text e) = 4
  ∧ (∃ left right, original e = left ++ text e ++ right)
  ∧ length (suggestion e) + 2 = length (original e)
  ∧ confidence e = None ∧ candidates e = None.
Proof.
  intros (pre & c1 & c2 & post & Htext & H1 & H2 & ->)%fix_word_hyphenation_inv.
  destruct (hyphenation_issue_spec U pre c1 c2 post)
    as (before & left & right & after & _ & _ & _ & _ & _ & Ho & Hs).
  rewrite <- Htext in Ho, Hs. rewrite Ho, Hs.
  split; [done|]. split; [by exists left, right|]. split; [|done].
  rewrite !length_app. simpl. lia.
Qed.

Lemma hyphenation_issue_shape_witness :
  length (suggestion (hyphenation_issue basic_table (u "чер-" ++ [newline] ++ u "ный")
                        (2, u "р-" ++ [newline] ++ u "н"))) + 2
  = length (original (hyphenation_issue basic_table (u "чер-" ++ [newline] ++ u "ный")
                        (2, u "р-" ++ [newline] ++ u "н"))).
Proof.
  apply (hyphenation_issue_shape basic_table (u "чер-" ++ [newline] ++ u "ный")).
  vm_compute. left.
Defined.

(** X7: a text without a line break, or without a hyphen, gets no
    hyphenation issue and passes the hyphenation pass unchanged; and the
    pass never makes a text longer. *)
Theorem hyphenation_pass_shrinks (U : UnicodeTable) (text : str)
    (errors : list issue) :
  (newline ∉ text ∨ hyphen ∉ text →
   _fix_word_hyphenation U text = []
   ∧ hyphenation_pass U (text, errors) = (text, errors))
  ∧ length (hyphenation_pass U (text, errors)).1 ≤ length text.
Proof.
  split.
  - intros Hno.
    assert (_fix_word_hyphenation U text = []) as Hnil.
    { destruct (_fix_word_hyphenation U text) as [|e l] eqn:E; [done|]. exfalso.
      assert (e ∈ _fix_word_hyphenation U text) as He by (rewrite E; left).
      apply fix_word_hyphenation_inv in He as (pre & c1 & c2 & post & -> & _).
      destruct Hno as [Hno|Hno]; apply Hno; apply elem_of_app; right.
      + right. right. left.
      + right. left. }
    split; [done|]. unfold hyphenation_pass. rewrite Hnil. simpl.
    by rewrite app_nil_r.
  - simpl. apply apply_all_length_le. apply Forall_forall. intros e He.
    pose proof (hyphenation_issue_shape U text e He) as (H4 & (l & r & Ho) & Hlen & _).
    split; [|lia]. intros Hnil. rewrite Hnil in Hlen. simpl in Hlen. lia.
Qed.

Lemma hyphenation_pass_shrinks_witness :
  hyphenation_pass basic_table (u "черный", []) = (u "черный", []).
Proof.
  destruct (hyphenation_pass_shrinks basic_table (u "черный") []) as [H _].
  apply H. left. vm_compute. intros Hin.
  repeat (apply elem_of_cons in Hin as [Hin|Hin]; [discriminate Hin|]).
  by apply elem_of_nil in Hin.
Defined.

(** ** Tokens and suggestions of the confusable-character pass *)

Lemma longest_end_bounds (U : UnicodeTable) (s : str) : ∀ n k,
  longest_end U s n = Some k → 1 ≤ k ∧ k ≤ n.
Proof.
  induction n as [|n IH]; intros k; simpl; [done|].
  destruct (boundary U (s !! n) (s !! S n)).
  - intros [= <-]. lia.
  - intros H. apply IH in H. lia.
Qed.

Lemma run_length_take (p : char → bool) (s : str) : ∀ n,
  n ≤ run_length p s → forallb p (take n s) = true ∧ length (take n s) = n.
Proof.
  induction s as [|c s IH]; intros n Hn; simpl in Hn.
  - assert (n = 0) as -> by lia. done.
  - destruct n as [|n]; [done|]. simpl.
    destruct (p c); [|lia].
    destruct (IH n) as [H1 H2]; [lia|]. by rewrite H1, H2.
Qed.

Lemma m_word_match (U : UnicodeTable) (cls : char → bool) before (rest : str) n :
  m_word U cls before rest = Some n →
  take n rest ≠ [] ∧ forallb cls (take n rest) = true.
Proof.
  unfold m_word. destruct (boundary U before (head rest)); [|done].
  intros [H1 Hn]%longest_end_bounds.
  destruct (run_length_take cls rest n Hn) as [Hall Hlen].
  split; [|done]. intros Hnil. rewrite Hnil in Hlen. simpl in Hlen. lia.
Qed.

Lemma findall_token (U : UnicodeTable) (cls : char → bool) (s w : str) :
  w ∈ map snd (finditer (m_word U cls) s) →
  w ≠ [] ∧ forallb cls w = true ∧ ∃ pre post, s = pre ++ w ++ post.
Proof.
  intros ([j g] & -> & Hin)%elem_of_map. unfold finditer in Hin.
  apply scan_sound in Hin as (pre & rest & before & n & -> & _ & Hm & ->).
  destruct (m_word_match U cls before rest n Hm) as [Hne Hall]. simpl.
  split; [done|]. split; [done|].
  exists pre, (drop n rest). by rewrite take_drop.
Qed.

Lemma fix_char_idempotent (c : char) : fix_char (fix_char c) = fix_char c.
Proof.
  destruct (mapped c) eqn:Hm; [|by rewrite !(fix_char_mapped c Hm)].
  unfold mapped in Hm. unfold fix_char at 2 3.
  destruct (eqc c 48%N); [done|]. destruct (eqc c 49%N); [done|].
  destruct (eqc c 51%N); [done|]. destruct (eqc c 108%N); done.
Qed.

Lemma fix_char_not_mapped (c : char) : mapped (fix_char c) = false.
Proof.
  destruct (mapped c) eqn:Hm; [|by rewrite (fix_char_mapped c Hm)].
  unfold mapped in Hm. unfold fix_char.
  destruct (eqc c 48%N); [done|]. destruct (eqc c 49%N); [done|].
  destruct (eqc c 51%N); [done|]. destruct (eqc c 108%N); done.
Qed.

Lemma ocr_issue_inv (U : UnicodeTable) (s : str) (e : issue) :
  e ∈ _check_ocr_errors U s →
  ∃ w, w ∈ findall_words U s ∧ existsb mapped w = true
       ∧ e = ocr_issue w (map fix_char w).
Proof.
  unfold _check_ocr_errors. rewrite ocr_issues_filter.
  intros (w & -> & Hw)%elem_of_map.
  apply list_elem_of_In, filter_In in Hw as [Hin Hm].
  exists w. by rewrite list_elem_of_In.
Qed.

(** X8: every confusable-character issue is about a non-empty token of the
    scanned text made of word characters only; its suggestion contains none
    of the four confusable characters, and correcting the suggestion again
    changes nothing. *)
Theorem ocr_issue_shape (U : UnicodeTable) (s : str) (e : issue) :
  e ∈ _check_ocr_errors U s →
  original e ≠ []
  ∧ forallb (isword U) (original e) = true
  ∧ (∃ pre post, s = pre ++ original e ++ post)
  ∧ text e = original e
  ∧ existsb mapped (suggestion e) = false
  ∧ correct_word (suggestion e) = suggestion e.
Proof.
  intros (w & Hw & Hm & ->)%ocr_issue_inv.
  destruct (findall_token U (isword U) s w Hw) as (Hne & Hall & Hsub).
  simpl. split; [done|]. split; [done|]. split; [done|]. split; [done|]. split.
  - clear. induction w as [|c w IH]; [done|]. simpl.
    by rewrite fix_char_not_mapped, IH.
  - rewrite correct_word_pointwise, map_map.
    apply map_ext. apply fix_char_idempotent.
Qed.

Lemma ocr_issue_shape_witness :
  correct_word (suggestion (ocr_issue (u "3") (map fix_char (u "3"))))
  = suggestion (ocr_issue (u "3") (map fix_char (u "3"))).
Proof.
  apply (ocr_issue_shape basic_table (u "3 3")). vm_compute. left.
Defined.

(** X9: a text that contains none of the four confusable characters gets no
    confusable-character issue, and the pass then returns its state as it
    was; in every case the pass leaves the length of the corrected text
    unchanged. *)
Theorem ocr_pass_keeps_length (U : UnicodeTable) (s : str)
    (check_ocr_errors : bool) (st : pass_state) :
  ((∀ c, c ∈ s → mapped c = false) →
   _check_ocr_errors U s = [] ∧ ocr_pass U s check_ocr_errors st = st)
  ∧ length (ocr_pass U s check_ocr_errors st).1 = length st.1.
Proof.
  split.
  - intros Hclean.
    assert (_check_ocr_errors U s = []) as Hnil.
    { destruct (_check_ocr_errors U s) as [|e l] eqn:E; [done|]. exfalso.
      assert (e ∈ _check_ocr_errors U s) as He by (rewrite E; left).
      apply ocr_issue_inv in He as (w & Hw & Hm & _).
      destruct (findall_token U (isword U) s w Hw) as (_ & _ & pre & post & Hs).
      apply existsb_exists in Hm as (c & Hc & Hmc).
      rewrite Hclean in Hmc; [done|].
      rewrite Hs. apply elem_of_app. right. apply elem_of_app. left.
      by apply list_elem_of_In. }
    split; [done|]. destruct st as [t errors]. unfold ocr_pass.
    destruct check_ocr_errors; [|done]. rewrite Hnil. simpl. by rewrite app_nil_r.
  - destruct st as [t errors]. unfold ocr_pass.
    destruct check_ocr_errors; [|done]. simpl.
    apply apply_all_length_eq. apply Forall_forall. intros e He.
    pose proof (ocr_issue_shape U s e He) as (Hne & _).
    split; [done|].
    apply ocr_issue_inv in He as (w & _ & _ & ->). simpl. apply length_map.
Qed.

Lemma ocr_pass_keeps_length_witness :
  ocr_pass basic_table (u "кот") true (u "кот", []) = (u "кот", []).
Proof.
  destruct (ocr_pass_keeps_length basic_table (u "кот") true (u "кот", [])) as [H _].
  apply H. vm_compute. intros c Hin.
  repeat (apply elem_of_cons in Hin as [->|Hin]; [reflexivity|]).
  by apply elem_of_nil in Hin.
Defined.

(** ** Counting issues by type *)

Lemma count_type_cons (ty : string) (e : issue) (errors : list issue) :
  count_type ty (e :: errors)
  = (if decide (type e = ty) then 1 else 0) + count_type ty errors.
Proof.
  unfold count_type. rewrite filter_cons. by destruct (decide (type e = ty)).
Qed.

Lemma count_type_app (ty : string) (a b : list issue) :
  count_type ty (a ++ b) = count_type ty a + count_type ty b.
Proof.
  induction a as [|e a IH]; [done|]. simpl app.
  rewrite !count_type_cons, IH. lia.
Qed.

Lemma count_type_all (ty : string) (l : list issue) :
  Forall (fun e => type e = ty) l → count_type ty l = length l.
Proof.
  induction 1 as [|e l He _ IH]; [done|].
  rewrite count_type_cons, IH. simpl. by rewrite decide_True.
Qed.

Lemma count_type_none (ty ty' : string) (l : list issue) :
  ty ≠ ty' → Forall (fun e => type e = ty') l → count_type ty l = 0.
Proof.
  intros Hne. induction 1 as [|e l He _ IH]; [done|].
  rewrite count_type_cons, IH. rewrite decide_False; [done|congruence].
Qed.

Lemma count_fold_lookup (errors : list issue) : ∀ (counts : gmap string nat) ty,
  fold_left
    (fun counts error =>
       <[type error := default 0 (counts !! type error) + 1]> counts)
    errors counts !! ty
  = match count_type ty errors with
    | 0 => counts !! ty
    | S k => Some (default 0 (counts !! ty) + S k)
    end.
Proof.
  induction errors as [|e errors IH]; intros counts ty; [done|].
  simpl fold_left. rewrite IH, count_type_cons.
  destruct (decide (type e = ty)) as [->|Hne].
  - rewrite lookup_insert_eq. simpl.
    destruct (count_type ty errors); f_equal; lia.
  - by rewrite lookup_insert_ne.
Qed.

(** X10: [_count_error_types] has a key exactly for the types that occur,
    and the value under a key is the number of issues of that type; so each
    [by_type] count of [get_stats] is the entry of [error_types] for its
    type, or zero when that key is missing. *)
Theorem count_error_types_lookup (errors : list issue) :
  (∀ ty, _count_error_types errors !! ty
         = if decide (count_type ty errors = 0) then None
           else Some (count_type ty errors))
  ∧ (let s := get_stats errors in
     ocr_errors s = default 0 (stats_error_types s !! "ocr_error")
     ∧ by_type_context_errors s = default 0 (stats_error_types s !! "context_error")
     ∧ grammar_errors s = default 0 (stats_error_types s !! "grammar_error")
     ∧ spelling_errors s = default 0 (stats_error_types s !! "spelling_error")).
Proof.
  assert (∀ ty, _count_error_types errors !! ty
                = if decide (count_type ty errors = 0) then None
                  else Some (count_type ty errors)) as Hlookup.
  { intros ty. unfold _count_error_types. rewrite count_fold_lookup.
    rewrite lookup_empty. by destruct (count_type ty errors). }
  split; [done|]. simpl.
  rewrite !Hlookup.
  repeat split; by case_decide.
Qed.

(** ** The issue list of [check_text] *)

Lemma hyphenation_types (U : UnicodeTable) (s : str) :
  Forall (fun e => type e = "hyphenation_error") (_fix_word_hyphenation U s).
Proof.
  apply Forall_forall. intros e (m & -> & _)%elem_of_map. done.
Qed.

Lemma ocr_types (U : UnicodeTable) (s : str) :
  Forall (fun e => type e = "ocr_error") (_check_ocr_errors U s).
Proof.
  apply Forall_forall. by intros e (w & _ & _ & ->)%ocr_issue_inv.
Qed.

Lemma context_issue_inv (U : UnicodeTable) (self : ErrorChecker) (s : str)
    (e : issue) :
  e ∈ _check_context_errors U self s →
  ∃ wrong correct pre rest,
    (wrong, correct) ∈ context_errors self
    ∧ contains (lower_str U wrong) (lower_str U s) = true
    ∧ s = pre ++ rest ∧ iprefix U wrong rest = true
    ∧ e = context_issue (take (length wrong) rest) correct.
Proof.
  unfold _check_context_errors.
  intros ([wrong correct] & He & Hentry)%elem_of_flat_map.
  unfold context_issues_for in He.
  destruct (contains _ _) eqn:Hguard; [|by apply elem_of_nil in He].
  apply elem_of_map in He as ([j g] & -> & Hin).
  apply scan_sound in Hin as (pre & rest & before & n & -> & _ & Hm & ->).
  unfold m_literal_icase in Hm.
  destruct (iprefix U wrong rest) eqn:Hp; [|done]. injection Hm as <-.
  by exists wrong, correct, pre, rest.
Qed.

Lemma context_types (U : UnicodeTable) (self : ErrorChecker) (s : str) :
  Forall (fun e => type e = "context_error") (_check_context_errors U self s).
Proof.
  apply Forall_forall.
  by intros e (wrong & correct & pre & rest & _ & _ & _ & _ & ->)%context_issue_inv.
Qed.

Lemma grammar_types (self : ErrorChecker) (s : str) :
  Forall (fun e => type e = "grammar_error") (_check_grammar self s).
Proof.
  apply Forall_forall. by intros e (o & sug & ->)%check_grammar_issue.
Qed.

Lemma spelling_loop_inv (sp : SpellChecker) (misspelled : list str) :
  ∀ (acc : list issue),
    ∃ found,
      spelling_loop sp misspelled acc = acc ++ found
      ∧ length found ≤ length misspelled
      ∧ ∀ e, e ∈ found →
             ∃ w cands sug,
               w ∈ misspelled ∧ spell_candidates sp w = Ok cands
               ∧ head cands = Some sug ∧ e = spelling_issue w sug cands.
Proof.
  induction misspelled as [|w misspelled IH]; intros acc.
  { exists []. rewrite app_nil_r. repeat split; [done|]. by intros e ?%elem_of_nil. }
  simpl. destruct (spell_candidates sp w) as [[|sug cands]|msg] eqn:Hc.
  - destruct (IH acc) as (found & Heq & Hlen & Hall).
    exists found. split; [done|]. split; [simpl; lia|].
    intros e He. destruct (Hall e He) as (w' & c' & s' & Hw' & ?).
    exists w', c', s'. split; [by right|done].
  - destruct (IH (acc ++ [spelling_issue w sug (sug :: cands)]))
      as (found & Heq & Hlen & Hall).
    exists (spelling_issue w sug (sug :: cands) :: found).
    split; [by rewrite Heq, <- app_assoc|]. split; [simpl; lia|].
    intros e [->|He]%elem_of_cons.
    + exists w, (sug :: cands), sug. split; [left|done].
    + destruct (Hall e He) as (w' & c' & s' & Hw' & ?).
      exists w', c', s'. split; [by right|done].
  - exists []. rewrite app_nil_r. repeat split; [simpl; lia|].
    by intros e ?%elem_of_nil.
Qed.

Lemma spelling_issue_inv (U : UnicodeTable) (self : ErrorChecker) (s : str)
    (e : issue) :
  e ∈ _check_spelling U self s →
  ∃ sp misspelled w cands sug,
    spell self = Some sp
    ∧ unknown sp (findall_cyr_words U s) = Ok misspelled
    ∧ w ∈ misspelled ∧ spell_candidates sp w = Ok cands
    ∧ head cands = Some sug ∧ e = spelling_issue w sug cands.
Proof.
  unfold _check_spelling.
  destruct (negb (has_spellchecker self)); [by intros ?%elem_of_nil|].
  destruct (spell self) as [sp|]; [|by intros ?%elem_of_nil].
  destruct (unknown sp (findall_cyr_words U s)) as [misspelled|] eqn:Hu;
    [|by intros ?%elem_of_nil].
  destruct (spelling_loop_inv sp misspelled []) as (found & -> & _ & Hall).
  simpl. intros He. destruct (Hall e He) as (w & cands & sug & ?).
  by exists sp, misspelled, w, cands, sug.
Qed.

Lemma spelling_types (U : UnicodeTable) (self : ErrorChecker) (s : str) :
  Forall (fun e => type e = "spelling_error") (_check_spelling U self s).
Proof.
  apply Forall_forall.
  by intros e (sp & ms & w & cands & sug & _ & _ & _ & _ & _ & ->)%spelling_issue_inv.
Qed.

(** The issue list of [check_text], pass by pass. *)
Lemma check_text_errors (U : UnicodeTable) (self : ErrorChecker) (s : str)
    (check_grammar check_ocr_errors : bool) :
  ∃ t2 t3 t4 : str,
    errors (check_text U self s check_grammar check_ocr_errors)
    = _fix_word_hyphenation U s
        ++ (if check_ocr_errors then _check_ocr_errors U s else [])
        ++ _check_context_errors U self t2
        ++ (if check_grammar && has_language_tool self
            then _check_grammar self t3 else [])
        ++ (if check_grammar && has_spellchecker self
            then _check_spelling U self t4 else []).
Proof.
  unfold check_text. simpl errors.
  unfold hyphenation_pass, ocr_pass.
  set (t1 := apply_all s (_fix_word_hyphenation U s)).
  set (st2 := if check_ocr_errors then _ else _).
  assert (∃ t2, st2 = (t2, _fix_word_hyphenation U s
                             ++ (if check_ocr_errors then _check_ocr_errors U s else [])))
    as [t2 ->].
  { subst st2. destruct check_ocr_errors; eexists; [done|]. by rewrite !app_nil_r. }
  unfold context_pass.
  set (t3 := apply_all t2 _).
  unfold grammar_pass, spelling_pass.
  exists t2, t3.
  destruct (check_grammar && has_language_tool self);
    destruct (check_grammar && has_spellchecker self); simpl;
    [exists (apply_confident t3 (_check_grammar self t3))
    |exists t3|exists t3|exists t3];
    by rewrite <- ?app_assoc, ?app_nil_r.
Qed.

(** X11: the issue list of [check_text] is ordered by pass: first the
    hyphenation issues of the input, then the confusable-character issues
    of the input (none when that check is off), then context, grammar and
    spelling issues; every issue has the type of its pass. *)
Theorem check_text_issues_by_pass (U : UnicodeTable) (self : ErrorChecker)
    (s : str) (check_grammar check_ocr_errors : bool) :
  ∃ c g sp,
    errors (check_text U self s check_grammar check_ocr_errors)
    = _fix_word_hyphenation U s
        ++ (if check_ocr_errors then _check_ocr_errors U s else [])
        ++ c ++ g ++ sp
    ∧ Forall (fun e => type e = "hyphenation_error") (_fix_word_hyphenation U s)
    ∧ Forall (fun e => type e = "ocr_error") (_check_ocr_errors U s)
    ∧ Forall (fun e => type e = "context_error") c
    ∧ Forall (fun e => type e = "grammar_error") g
    ∧ Forall (fun e => type e = "spelling_error") sp.
Proof.
  destruct (check_text_errors U self s check_grammar check_ocr_errors)
    as (t2 & t3 & t4 & Heq).
  eexists _, _, _. split; [exact Heq|].
  split; [apply hyphenation_types|]. split; [apply ocr_types|].
  split; [apply context_types|]. split.
  - destruct (check_grammar && has_language_tool self);
      [apply grammar_types|constructor].
  - destruct (check_grammar && has_spellchecker self);
      [apply spelling_types|constructor].
Qed.

(** X12: for the issues of any [check_text] result, [total_errors] of
    [get_stats] is the sum of its four [by_type] counts plus the number of
    hyphenation issues, which [by_type] does not list. *)
Theorem get_stats_omits_hyphenation (U : UnicodeTable) (self : ErrorChecker)
    (s : str) (check_grammar check_ocr_errors : bool) :
  let r := check_text U self s check_grammar check_ocr_errors in
  let st := get_stats (errors r) in
  total_errors st
  = hyphenation_count (errors r) + ocr_errors st + by_type_context_errors st
    + grammar_errors st + spelling_errors st
  ∧ hyphenation_count (errors r) = length (_fix_word_hyphenation U s).
Proof.
  destruct (check_text_errors U self s check_grammar check_ocr_errors)
    as (t2 & t3 & t4 & Heq).
  cbv zeta. unfold get_stats.
  cbn [total_errors ocr_errors by_type_context_errors grammar_errors spelling_errors].
  rewrite Heq. unfold hyphenation_count.
  set (h := _fix_word_hyphenation U s).
  set (o := if check_ocr_errors then _ else _).
  set (c := _check_context_errors U self t2).
  set (g := if check_grammar && has_language_tool self then _ else _).
  set (sp := if check_grammar && has_spellchecker self then _ else _).
  assert (Forall (fun e => type e = "hyphenation_error") h) as Hh
    by apply hyphenation_types.
  assert (Forall (fun e => type e = "ocr_error") o) as Ho
    by (subst o; destruct check_ocr_errors; [apply ocr_types|constructor]).
  assert (Forall (fun e => type e = "context_error") c) as Hc
    by apply context_types.
  assert (Forall (fun e => type e = "grammar_error") g) as Hg
    by (subst g; destruct (check_grammar && has_language_tool self);
        [apply grammar_types|constructor]).
  assert (Forall (fun e => type e = "spelling_error") sp) as Hsp
    by (subst sp; destruct (check_grammar && has_spellchecker self);
        [apply spelling_types|constructor]).
  rewrite !count_type_app, !length_app.
  repeat match goal with
         | H : Forall (fun e => type e = ?ty') ?l |- context [count_type ?ty ?l] =>
             first [ rewrite (count_type_all ty l H)
                   | rewrite (count_type_none ty ty' l ltac:(done) H) ]
         end.
  lia.
Qed.

(** ** The spelling pass *)

(** X13: only non-empty words made of Cyrillic letters are handed to the
    spell checker; every spelling issue is about a word the checker reported
    as unknown, suggests the first candidate the checker gave for it and
    keeps at most three candidates, the suggestion first; and there are
    never more issues than unknown words. *)
Theorem spelling_issue_shape (U : UnicodeTable) (self : ErrorChecker) (s : str) :
  (∀ w, w ∈ findall_cyr_words U s →
        w ≠ [] ∧ forallb cyr_letter w = true ∧ ∃ pre post, s = pre ++ w ++ post)
  ∧ (∀ e, e ∈ _check_spelling U self s →
       ∃ sp misspelled cands kept3,
         spell self = Some sp
         ∧ unknown sp (findall_cyr_words U s) = Ok misspelled
         ∧ original e ∈ misspelled
         ∧ spell_candidates sp (original e) = Ok cands
         ∧ head cands = Some (suggestion e)
         ∧ candidates e = Some kept3
         ∧ kept3 = take 3 cands ∧ length kept3 ≤ 3
         ∧ head kept3 = Some (suggestion e)
         ∧ text e = original e ∧ confidence e = None)
  ∧ (∀ sp misspelled,
       spell self = Some sp →
       unknown sp (findall_cyr_words U s) = Ok misspelled →
       length (_check_spelling U self s) ≤ length misspelled).
Proof.
  split; [|split].
  - intros w Hw. by apply (findall_token U cyr_letter).
  - intros e (sp & ms & w & cands & sug & Hsp & Hu & Hw & Hc & Hhead & ->)%spelling_issue_inv.
    exists sp, ms, cands, (take 3 cands). simpl.
    repeat split; try done.
    + rewrite length_take. lia.
    + by destruct cands.
  - intros sp misspelled Hsp Hu. unfold _check_spelling. rewrite Hsp, Hu.
    destruct (negb (has_spellchecker self)); [simpl; lia|].
    destruct (spelling_loop_inv sp misspelled []) as (found & -> & Hlen & _).
    done.
Qed.

Lemma spelling_issue_shape_witness :
  length (_check_spelling basic_table flaky_checker (u "кот дом")) ≤ 2.
Proof.
  destruct (spelling_issue_shape basic_table flaky_checker (u "кот дом"))
    as (_ & _ & H).
  exact (H flaky_spell [u "кот"; u "дом"] eq_refl eq_refl).
Defined.

(** ** The context pass *)

(** X14: every context issue is about a stretch of the scanned text that
    matches a configured wrong phrase character by character under
    [re.IGNORECASE], has the length of that phrase, and suggests the
    phrase's configured correction; a text whose lowercase form contains
    none of the lowercased wrong phrases gets no context issue and passes the
    context pass unchanged. *)
Theorem context_issue_shape (U : UnicodeTable) (self : ErrorChecker) (s : str)
    (errs : list issue) :
  (∀ e, e ∈ _check_context_errors U self s →
     ∃ wrong pre post,
       (wrong, suggestion e) ∈ context_errors self
       ∧ s = pre ++ original e ++ post
       ∧ length (original e) = length wrong
       ∧ iprefix U wrong (original e) = true
       ∧ text e = original e)
  ∧ ((∀ entry, entry ∈ context_errors self →
        contains (lower_str U entry.1) (lower_str U s) = false) →
     _check_context_errors U self s = []
     ∧ context_pass U self (s, errs) = (s, errs)).
Proof.
  split.
  - intros e (wrong & correct & pre & rest & Hentry & _ & -> & Hp & ->)%context_issue_inv.
    pose proof (iprefix_length U wrong rest Hp) as Hlen.
    exists wrong, pre, (drop (length wrong) rest). simpl.
    split; [done|]. split; [by rewrite take_drop|].
    split; [rewrite length_take; lia|]. split; [|done].
    clear -Hp. revert rest Hp.
    induction wrong as [|p w IH]; intros [|c r] Hp; simpl in *; try done.
    apply andb_true_iff in Hp as [-> Hp]. by apply IH.
  - intros Hno.
    assert (_check_context_errors U self s = []) as Hnil.
    { unfold _check_context_errors.
      induction (context_errors self) as [|[wrong correct] table IH]; [done|].
      simpl flat_map. unfold context_issues_for at 1.
      assert (contains (lower_str U wrong) (lower_str U s) = false) as ->
        by (apply (Hno (wrong, correct)); left).
      simpl. apply IH. intros entry Hentry. apply Hno. by right. }
    split; [done|]. unfold context_pass. rewrite Hnil. simpl. by rewrite app_nil_r.
Qed.

Lemma context_issue_shape_witness :
  context_pass basic_table no_engines (u "кот спит", []) = (u "кот спит", []).
Proof.
  destruct (context_issue_shape basic_table no_engines (u "кот спит") []) as [_ H].
  apply H. intros entry Hentry. vm_compute in Hentry.
  repeat (apply elem_of_cons in Hentry as [->|Hentry]; [by vm_compute|]).
  by apply elem_of_nil in Hentry.
Defined.

(** ** Switching the language checks off *)

(** X15: with [check_grammar] false neither engine is consulted: the result
    contains no grammar and no spelling issue, and two checkers with the same
    phrase table return the same result whatever engines they loaded. *)
Theorem check_grammar_off_ignores_engines (U : UnicodeTable)
    (self other : ErrorChecker) (s : str) (check_ocr_errors : bool) :
  let r := check_text U self s false check_ocr_errors in
  count_type "grammar_error" (errors r) = 0
  ∧ count_type "spelling_error" (errors r) = 0
  ∧ (context_errors self = context_errors other →
     r = check_text U other s false check_ocr_errors).
Proof.
  intros r.
  destruct (check_text_errors U self s false check_ocr_errors) as (t2 & t3 & t4 & Heq).
  subst r. rewrite Heq. simpl andb. cbv iota.
  pose proof (hyphenation_types U s) as Hh.
  assert (Forall (fun e => type e = "ocr_error")
            (if check_ocr_errors then _check_ocr_errors U s else [])) as Ho
    by (destruct check_ocr_errors; [apply ocr_types|constructor]).
  pose proof (context_types U self t2) as Hc.
  rewrite !app_nil_r, !count_type_app.
  repeat match goal with
         | H : Forall (fun e => type e = ?ty') ?l |- context [count_type ?ty ?l] =>
             rewrite (count_type_none ty ty' l ltac:(done) H)
         end.
  split; [done|]. split; [done|].
  intros Htable. unfold check_text, grammar_pass, spelling_pass, context_pass,
    _check_context_errors. simpl andb. cbv iota. by rewrite Htable.
Qed.

Lemma check_grammar_off_ignores_engines_witness :
  check_text basic_table typo_checker (u "кот") false true
  = check_text basic_table flaky_checker (u "кот") false true.
Proof.
  destruct (check_grammar_off_ignores_engines basic_table typo_checker flaky_checker
              (u "кот") true) as (_ & _ & H).
  apply H. reflexivity.
Defined.

(** ** The application *)

Lemma error_lines_print (errs : list issue) : ∀ i ev,
  ev ∈ error_lines i errs → ∃ line, ev = Print line.
Proof.
  induction errs as [|e errs IH]; intros i ev; simpl; [by intros ?%elem_of_nil|].
  intros [->|H]%elem_of_cons; [by eexists|by eapply IH].
Qed.

Lemma process_image_cases {image} (U : UnicodeTable) (cv : Vision image)
    (checker : ErrorChecker) (fs : Files) (image_path : str)
    (check_errors save_output : bool) :
  (∃ e, recognize_text cv image_path = OcrFailure e
        ∧ process_image U cv checker fs image_path check_errors save_output
          = ([Print (u " Ошибка: " ++ e)], Ok tt))
  ∨ (∃ t n w prints,
       recognize_text cv image_path = OcrSuccess t n w
       ∧ (∀ ev, ev ∈ prints → ∃ line, ev = Print line)
       ∧ process_image U cv checker fs image_path check_errors save_output
         = if save_output then
             match write_text fs (output_file fs) t with
             | Ok _ =>
                 (prints ++ [WriteFile (output_file fs) t;
                             Print (u " Результат сохранен: " ++ output_file fs
                                      ++ [newline])], Ok tt)
             | Raise msg => (prints, Raise msg)
             end
           else (prints, Ok tt)).
Proof.
  unfold process_image.
  destruct (recognize_text cv image_path) as [e|t n w]; [left; by exists e|].
  right.
  match goal with
  | |- context [if save_output then _ else (?a ++ ?b ++ ?c, Ok tt)] =>
      exists t, n, w, (a ++ b ++ c)
  end.
  split; [done|]. split.
  2:{ destruct save_output; [|reflexivity].
      destruct (write_text fs (output_file fs) t); [|reflexivity].
      by rewrite <- !app_assoc. }
  intros ev Hev. rewrite !elem_of_app in Hev.
  destruct Hev as [Hev|[Hev|Hev]].
  - repeat (apply elem_of_cons in Hev as [->|Hev]; [by eexists|]).
    by apply elem_of_nil in Hev.
  - destruct check_errors; [|by apply elem_of_nil in Hev].
    apply elem_of_cons in Hev as [->|Hev]; [by eexists|].
    by eapply error_lines_print.
  - apply elem_of_cons in Hev as [->|Hev]; [by eexists|].
    by apply elem_of_nil in Hev.
Qed.

(** X16: [process_image] writes a file only when recognition succeeded,
    saving was requested and the write went through; the file is
    [OUTPUT_DIR/result.txt] and its content is the recognized text as
    [recognize_text] returned it, not the corrected text, whether or not the
    error check ran.  A failed recognition prints one line and nothing else;
    only a failing write makes the call raise. *)
Theorem process_image_saves_recognized_text {image} (U : UnicodeTable)
    (cv : Vision image) (checker : ErrorChecker) (fs : Files)
    (image_path : str) (check_errors save_output : bool) :
  let run := process_image U cv checker fs image_path check_errors save_output in
  (∀ p c, WriteFile p c ∈ run.1 →
     save_output = true ∧ p = output_file fs
     ∧ (∃ done, write_text fs p c = Ok done)
     ∧ ∃ n w, recognize_text cv image_path = OcrSuccess c n w)
  ∧ (∀ e, recognize_text cv image_path = OcrFailure e →
          run = ([Print (u " Ошибка: " ++ e)], Ok tt))
  ∧ (∀ msg, run.2 = Raise msg →
       save_output = true
       ∧ ∃ t n w, recognize_text cv image_path = OcrSuccess t n w
                  ∧ write_text fs (output_file fs) t = Raise msg)
  ∧ (∀ t n w, recognize_text cv image_path = OcrSuccess t n w →
       save_output = true → write_text fs (output_file fs) t = Ok tt →
       WriteFile (output_file fs) t ∈ run.1).
Proof.
  intros run. subst run.
  destruct (process_image_cases U cv checker fs image_path check_errors save_output)
    as [(e & Hrec & ->)|(t & n & w & prints & Hrec & Hprints & ->)].
  - split; [|split; [|split]].
    + intros p c Hin. apply list_elem_of_singleton in Hin. discriminate Hin.
    + intros e' He'. congruence.
    + intros msg Hr. discriminate Hr.
    + intros t n w Ht. congruence.
  - split; [|split; [|split]].
    + intros p c Hin. destruct save_output.
      * destruct (write_text fs (output_file fs) t) as [d|msg] eqn:Hw; simpl in Hin.
        -- apply elem_of_app in Hin as [Hin|Hin].
           ++ apply Hprints in Hin as [line Hline]. discriminate Hline.
           ++ apply elem_of_cons in Hin as [[= -> ->]|Hin].
              ** split; [done|]. split; [done|]. split; [by exists d|by exists n, w].
              ** apply list_elem_of_singleton in Hin. discriminate Hin.
        -- apply Hprints in Hin as [line Hline]. discriminate Hline.
      * apply Hprints in Hin as [line Hline]. discriminate Hline.
    + intros e He. congruence.
    + intros msg Hr. destruct save_output; [|discriminate Hr].
      split; [done|].
      destruct (write_text fs (output_file fs) t) as [d|msg'] eqn:Hw;
        [discriminate Hr|].
      simpl in Hr. injection Hr as ->. by exists t, n, w.
    + intros t' n' w' Ht' -> Hw.
      assert (t' = t) as -> by congruence. rewrite Hw. simpl.
      apply elem_of_app. right. left.
Qed.

Lemma process_image_saves_recognized_text_witness :
  WriteFile (u "output/result.txt") (u "a")
  ∈ (process_image basic_table padded_baseline no_engines demo_files
       (u "scan.png") true true).1.
Proof.
  destruct (process_image_saves_recognized_text basic_table padded_baseline
              no_engines demo_files (u "scan.png") true true) as (_ & _ & _ & H).
  exact (H (u "a") 1 1 eq_refl eq_refl eq_refl).
Defined.

Lemma process_image_unsaved {image} (U : UnicodeTable) (cv : Vision image)
    (checker : ErrorChecker) (fs : Files) (image_path : str) (check_errors : bool) :
  (process_image U cv checker fs image_path check_errors false).2 = Ok tt
  ∧ ∀ ev, ev ∈ (process_image U cv checker fs image_path check_errors false).1 →
          ∃ line, ev = Print line.
Proof.
  destruct (process_image_cases U cv checker fs image_path check_errors false)
    as [(e & _ & ->)|(t & n & w & prints & _ & Hprints & ->)].
  - split; [done|]. intros ev ->%list_elem_of_singleton. by eexists.
  - split; [done|]. exact Hprints.
Qed.

Lemma folder_loop_spec {image} (U : UnicodeTable) (cv : Vision image)
    (checker : ErrorChecker) (fs : Files) (check_errors : bool)
    (files : list str) :
  folder_loop U cv checker fs files check_errors
  = (flat_map
       (fun img_file =>
          Print ([newline] ++ u " Обработка: " ++ path_name fs img_file)
            :: (process_image U cv checker fs img_file check_errors false).1)
       (List.filter (supported U fs) files),
     Ok tt).
Proof.
  induction files as [|f files IH]; [done|].
  cbn [folder_loop List.filter].
  destruct (supported U fs f); [|exact IH].
  cbn [flat_map].
  destruct (process_image_unsaved U cv checker fs f check_errors) as [Hok _].
  destruct (process_image U cv checker fs f check_errors false) as [ev r].
  cbn [fst snd] in *. subst r. rewrite IH. reflexivity.
Qed.

(** X17: called with a folder and no image, [main] handles exactly the
    entries of the folder whose lowercased suffix is a supported format, in
    listing order, announcing each by name; it goes through all of them, and
    it never writes a file, even when [--output] was given. *)
Theorem main_folder_mode {image} (U : UnicodeTable) (cv : Vision image)
    (checker : ErrorChecker) (fs : Files) (args : Args) :
  given (args_image args) = false →
  given (args_folder args) = true →
  main U cv checker fs args
  = flat_map
      (fun img_file =>
         Print ([newline] ++ u " Обработка: " ++ path_name fs img_file)
           :: (process_image U cv checker fs img_file
                 (negb (args_no_check args)) false).1)
      (List.filter (supported U fs)
         (glob_all fs (default [] (args_folder args))))
  ∧ ∀ ev, ev ∈ main U cv checker fs args → ∃ line, ev = Print line.
Proof.
  intros Hi Hf.
  assert (main U cv checker fs args
          = (folder_loop U cv checker fs
               (glob_all fs (default [] (args_folder args)))
               (negb (args_no_check args))).1) as Hmain.
  { unfold main. rewrite Hi, Hf. cbn [negb andb].
    by rewrite folder_loop_spec. }
  rewrite Hmain, folder_loop_spec. split; [done|]. cbn [fst].
  intros ev (f & Hev & _)%elem_of_flat_map.
  apply elem_of_cons in Hev as [->|Hev]; [by eexists|].
  by apply (process_image_unsaved U cv checker fs f (negb (args_no_check args))).
Qed.

Lemma main_folder_mode_witness :
  main basic_table padded_baseline no_engines demo_files
    {| args_image := None; args_folder := Some (u "in");
       args_no_check := true; args_output := true |}
  = flat_map
      (fun img_file =>
         Print ([newline] ++ u " Обработка: " ++ path_name demo_files img_file)
           :: (process_image basic_table padded_baseline no_engines demo_files
                 img_file false false).1)
      (List.filter (supported basic_table demo_files)
         (glob_all demo_files (u "in"))).
Proof.
  exact (proj1 (main_folder_mode basic_table padded_baseline no_engines demo_files
                  {| args_image := None; args_folder := Some (u "in");
                     args_no_check := true; args_output := true |}
                  eq_refl eq_refl)).
Defined.
